(** * GSMS front end: the point reconciliation buffer and the channel connection

    A shallow embedding of
    - [frontend/src/app/Services/trace.service.ts] (class [TraceService]),
    - [frontend/src/app/Services/date-utc.service.ts] (class
      [DateUtcService]),
    - [src/app/Services/websocket-base.service.ts] (class
      [WebSocketBaseService]) and the services derived from it, among them
      [src/app/Services/request.service.ts] (class [RequestService]),
    with the properties of the specification stated over it. *)

From Stdlib Require Import ZArith Ascii String List Lia Bool.
From stdpp Require Import base decidable option list sorting gmap strings.

Local Open Scope Z_scope.

(** ** JavaScript numbers that are time values

    [Date.prototype.getTime] returns an integral number of milliseconds or
    [NaN] (for an invalid date).  Every relational operator answers [false]
    as soon as one operand is [NaN]. *)

Inductive jsnum : Type :=
| NaN : jsnum
| Num : Z -> jsnum.

#[global] Instance jsnum_eq_dec : EqDecision jsnum.
Proof. solve_decision. Defined.

Definition js_lt (a b : jsnum) : bool :=
  match a, b with
  | Num x, Num y => x <? y
  | _, _ => false
  end.

Definition js_gt (a b : jsnum) : bool := js_lt b a.

Definition is_NaN (a : jsnum) : bool :=
  match a with NaN => true | Num _ => false end.

(** ** The platform

    The code runs on IEEE doubles and on the engine's date parser.  Both are
    parameters of the development: [number] with the operations
    [normalizeCoord] and [hashPoint] call, and [Date_new], the time value of
    [new Date(iso)]. *)

Class JSNumber := {
  number : Type;
  number_of_Z : Z -> number;
  Math_pow : number -> number -> number;
  Math_round : number -> number;
  num_mul : number -> number -> number;
  num_div : number -> number -> number;
  toFixed : number -> Z -> string
}.

Class JSDate := {
  Date_new : string -> jsnum
}.

(** ** ECMAScript date arithmetic (ECMA-262, 21.4.1)

    These are fixed by the language standard, so they are definitions and not
    parameters. *)

Module ES.

Definition msPerDay : Z := 86400000.

Definition Day (t : Z) : Z := t / msPerDay.
Definition TimeWithinDay (t : Z) : Z := t mod msPerDay.

(** year, month (0-based) and day of the month of a day number *)
Definition civil_of_day (day : Z) : Z * Z * Z :=
  let z := day + 719468 in
  let era := z / 146097 in
  let doe := z - era * 146097 in
  let yoe := (doe - doe / 1460 + doe / 36524 - doe / 146096) / 365 in
  let doy := doe - (365 * yoe + yoe / 4 - yoe / 100) in
  let mp := (5 * doy + 2) / 153 in
  let d := doy - (153 * mp + 2) / 5 + 1 in
  let m := if mp <? 10 then mp + 3 else mp - 9 in
  let y := yoe + era * 400 + (if m <=? 2 then 1 else 0) in
  (y, m - 1, d).

(** day number of the first day of month [m] (0-based) of year [y] *)
Definition day_of_civil (y m : Z) : Z :=
  let m1 := m + 1 in
  let y' := if m1 <=? 2 then y - 1 else y in
  let era := y' / 400 in
  let yoe := y' - era * 400 in
  let doy := (153 * (if 2 <? m1 then m1 - 3 else m1 + 9) + 2) / 5 in
  let doe := yoe * 365 + yoe / 4 - yoe / 100 + doy in
  era * 146097 + doe - 719468.

Definition YearFromTime (t : Z) : Z := (civil_of_day (Day t)).1.1.
Definition MonthFromTime (t : Z) : Z := (civil_of_day (Day t)).1.2.
Definition DateFromTime (t : Z) : Z := (civil_of_day (Day t)).2.
Definition HourFromTime (t : Z) : Z := (t / 3600000) mod 24.
Definition MinFromTime (t : Z) : Z := (t / 60000) mod 60.
Definition SecFromTime (t : Z) : Z := (t / 1000) mod 60.

Definition MakeTime (hour min sec ms : Z) : Z :=
  hour * 3600000 + min * 60000 + sec * 1000 + ms.

Definition MakeDay (year month date : Z) : Z :=
  let ym := year + month / 12 in
  let mn := month mod 12 in
  day_of_civil ym mn + date - 1.

Definition MakeDate (day time : Z) : Z := day * msPerDay + time.

Definition TimeClip (t : jsnum) : jsnum :=
  match t with
  | NaN => NaN
  | Num z => if 8640000000000000 <? Z.abs z then NaN else Num z
  end.

(** [Date.UTC(year, month, date, hours, minutes, seconds)]; a year from 0
    to 99 stands for 1900 + year. *)
Definition Date_UTC (year month date hours minutes seconds : jsnum) : jsnum :=
  match year, month, date, hours, minutes, seconds with
  | Num y, Num m, Num dt, Num h, Num mi, Num s =>
      let yr := if (0 <=? y) && (y <=? 99) then 1900 + y else y in
      TimeClip (Num (MakeDate (MakeDay yr m dt) (MakeTime h mi s 0)))
  | _, _, _, _, _, _ => NaN
  end.

(** the [getUTC...] accessors of a [Date] whose time value is [t] *)
Definition getter (f : Z -> Z) (t : jsnum) : jsnum :=
  match t with NaN => NaN | Num z => Num (f z) end.

Definition getUTCFullYear := getter YearFromTime.
Definition getUTCMonth := getter MonthFromTime.
Definition getUTCDate := getter DateFromTime.
Definition getUTCHours := getter HourFromTime.
Definition getUTCMinutes := getter MinFromTime.
Definition getUTCSeconds := getter SecFromTime.

End ES.

(** ** date-utc.service.ts *)

Section DateUtcService.
Context `{JSDate}.

(** [parseIsoToUtc(iso)]; a [Date] is represented by its time value, so
    [new Date(number)] is [TimeClip] and [getTime] is the identity. *)
Definition parseIsoToUtc (iso : string) : jsnum :=
  let d := Date_new iso in
  ES.TimeClip
    (ES.Date_UTC
       (ES.getUTCFullYear d) (ES.getUTCMonth d) (ES.getUTCDate d)
       (ES.getUTCHours d) (ES.getUTCMinutes d) (ES.getUTCSeconds d)).

End DateUtcService.

(** ** trace.service.ts *)

Section TracePointModel.
Context `{JSNumber}.

Record TracePoint : Type := mkPoint {
  Latitude : number;
  Longitude : number;
  Timestamp : option string
}.

End TracePointModel.

Arguments TracePoint {_}.
Arguments mkPoint {_} _ _ _.

#[global] Instance TracePoint_eq_dec `{JSNumber} `{!EqDecision number} :
  EqDecision TracePoint.
Proof. solve_decision. Defined.

(** request.model.ts, response.model.ts *)

Inductive RequestAction : Type :=
| get_history | get_history_bounds | get_devices | get_device_status | ping.

#[global] Instance RequestAction_eq_dec : EqDecision RequestAction.
Proof. solve_decision. Defined.

Inductive ResponseStatus : Type := success | error.

Section WireModel.
Context `{JSNumber}.

(** The shape of what arrives on the wire, before the handlers' run-time
    checks: a field that fails [typeof x === 'number'] is [None], a falsy
    array element is [None], and a [data] field that is absent or not an
    array is [None]. *)
Record RawPoint : Type := mkRaw {
  raw_Latitude : option number;
  raw_Longitude : option number;
  raw_Timestamp : option string
}.

Record ResponseMessage : Type := mkResponse {
  action : RequestAction;
  request_id : option string;
  status : ResponseStatus;
  data : option (list (option RawPoint))
}.

End WireModel.

Arguments RawPoint {_}.
Arguments mkRaw {_} _ _ _.
Arguments ResponseMessage {_}.
Arguments mkResponse {_} _ _ _ _.

Local Close Scope Z_scope.

Section TraceService.
Context `{JSNumber} `{JSDate}.

Definition COORD_DECIMALS : Z := 6.

Definition normalizeCoord (value : number) : number :=
  let factor := Math_pow (number_of_Z 10) (number_of_Z COORD_DECIMALS) in
  num_div (Math_round (num_mul value factor)) factor.

Definition hashPoint (point : TracePoint) : string :=
  toFixed (Latitude point) COORD_DECIMALS +:+ "|" +:+
  toFixed (Longitude point) COORD_DECIMALS +:+ "|" +:+
  default "" (Timestamp point).

(** [parseTimestamp]: [!ts] holds for [null] and for the empty string.  None
    of [new Date(string)], the [getUTC...] accessors, [Date.UTC] and
    [getTime] throws, so the [catch] branch is never taken and an
    unparseable string yields the [NaN] of an invalid date. *)
Definition parseTimestamp (ts : option string) : jsnum :=
  match ts with
  | None => Num 0
  | Some EmptyString => Num 0
  | Some iso => parseIsoToUtc iso
  end.

(** [parseTimestamp(buffer[i].Timestamp)]; the loop below only reads indices
    inside the buffer (see [insertSorted_loop_runs]). *)
Definition ts_at (buffer : list TracePoint) (i : nat) : jsnum :=
  match buffer !! i with
  | Some q => parseTimestamp (Timestamp q)
  | None => NaN
  end.

(** The [while (left < right)] loop of [insertSorted]; the interval shrinks
    at every turn, so [right - left] turns are enough. *)
Fixpoint insertSorted_loop (fuel : nat) (buffer : list TracePoint) (ts : jsnum)
    (left right : nat) : nat :=
  match fuel with
  | O => left
  | S fuel' =>
      if left <? right then
        let mid := (left + right) / 2 in
        if js_lt (ts_at buffer mid) ts
        then insertSorted_loop fuel' buffer ts (mid + 1) right
        else insertSorted_loop fuel' buffer ts left mid
      else left
  end.

(** [buffer.splice(left, 0, point)] *)
Definition splice0 (buffer : list TracePoint) (left : nat) (point : TracePoint)
    : list TracePoint :=
  take left buffer ++ point :: drop left buffer.

(** [insertSorted(buffer, point)]: the buffer after the call and the index
    returned. *)
Definition insertSorted (buffer : list TracePoint) (point : TracePoint)
    : list TracePoint * nat :=
  let ts := parseTimestamp (Timestamp point) in
  let left := insertSorted_loop (length buffer) buffer ts 0 (length buffer) in
  (splice0 buffer left point, left).

Record TraceService : Type := mkTrace {
  dummyBuffer : list TracePoint;
  dummyHashSet : gset string;
  realtimeBuffer : list TracePoint;
  realtimeHashSet : gset string;
  finalBuffer : list TracePoint
}.

(** the state the field initialisers build *)
Definition TraceService_new : TraceService :=
  mkTrace [] ∅ [] ∅ [].

(** one turn of [for (const p of [...A, ...B])] *)
Definition combine_step (acc : list TracePoint * gset string) (p : TracePoint)
    : list TracePoint * gset string :=
  let hash := hashPoint p in
  if decide (hash ∈ acc.2) then acc else (acc.1 ++ [p], {[hash]} ∪ acc.2).

(** the live points [rebuildFinalBuffer] keeps, given [A] and [B_all] *)
Definition cutover (A B_all : list TracePoint) : list TracePoint :=
  if length A =? 0 then B_all
  else
    let oldestDummyTs := ts_at A (length A - 1) in
    filter (λ p, js_gt (parseTimestamp (Timestamp p)) oldestDummyTs = true) B_all.

Definition rebuildFinalBuffer (st : TraceService) : TraceService :=
  let A := dummyBuffer st in
  let B := cutover A (realtimeBuffer st) in
  let combined := (foldl combine_step ([], ∅) (A ++ B)).1 in
  mkTrace (dummyBuffer st) (dummyHashSet st)
          (realtimeBuffer st) (realtimeHashSet st) combined.

Definition normalizePoint (point : TracePoint) : TracePoint :=
  mkPoint (normalizeCoord (Latitude point)) (normalizeCoord (Longitude point))
          (Timestamp point).

Definition addToDummy (st : TraceService) (point : TracePoint) : TraceService :=
  let point := normalizePoint point in
  let hash := hashPoint point in
  if decide (hash ∈ dummyHashSet st) then st
  else
    let buffer := (insertSorted (dummyBuffer st) point).1 in
    rebuildFinalBuffer
      (mkTrace buffer ({[hash]} ∪ dummyHashSet st)
               (realtimeBuffer st) (realtimeHashSet st) (finalBuffer st)).

Definition addToRealtime (st : TraceService) (point : TracePoint) : TraceService :=
  let point := normalizePoint point in
  let hash := hashPoint point in
  if decide (hash ∈ realtimeHashSet st) then st
  else
    let buffer := (insertSorted (realtimeBuffer st) point).1 in
    rebuildFinalBuffer
      (mkTrace (dummyBuffer st) (dummyHashSet st)
               buffer ({[hash]} ∪ realtimeHashSet st) (finalBuffer st)).

Definition getTrace (st : TraceService) : list TracePoint := finalBuffer st.

Definition clearTrace (st : TraceService) : TraceService :=
  mkTrace [] ∅ [] ∅ [].

(** the body of the [for (const p of msg.data)] loop of the history handler *)
Definition history_item (st : TraceService) (p : option RawPoint) : TraceService :=
  match p with
  | Some (mkRaw (Some lat) (Some lon) ts) => addToDummy st (mkPoint lat lon ts)
  | _ => st
  end.

(** the [next] handler of [historySub], behind its [filter] *)
Definition onHistory (st : TraceService) (msg : option ResponseMessage) : TraceService :=
  match msg with
  | Some m =>
      if decide (action m = get_history) then
        match data m with
        | None => st
        | Some points =>
            let cleared :=
              mkTrace [] ∅ (realtimeBuffer st) (realtimeHashSet st) (finalBuffer st) in
            foldl history_item cleared points
        end
      else st
  | None => st
  end.

(** the [next] handler of [gpsSub] *)
Definition onGPS_next (st : TraceService) (data : option RawPoint) : TraceService :=
  match data with
  | Some (mkRaw (Some lat) (Some lon) ts) => addToRealtime st (mkPoint lat lon ts)
  | _ => st
  end.

(** What reaches the service: an emission of [onGPS()], an emission of
    [onResponse()], or a call of [clearTrace()]. *)
Inductive TraceEvent : Type :=
| GpsEmission (data : option RawPoint)
| ResponseEmission (msg : option ResponseMessage)
| ClearTrace.

Definition trace_step (st : TraceService) (ev : TraceEvent) : TraceService :=
  match ev with
  | GpsEmission data => onGPS_next st data
  | ResponseEmission msg => onHistory st msg
  | ClearTrace => clearTrace st
  end.

Definition trace_run (evs : list TraceEvent) : TraceService :=
  foldl trace_step TraceService_new evs.

End TraceService.

Local Open Scope Z_scope.

(** ** websocket-base.service.ts

    The service is modelled together with the RxJS operators it is built
    from.  One call of [connect(attempt)] builds one pipeline
    [socket$.pipe(retry, tap, share, finalize).subscribe(...)]; the state of
    a pipeline is the parameter [attempt] its [finalize] callback closes
    over, the counter [soFar] of its [retry] operator, and its phase.  The
    transport and the timers are the environment: what they report is an
    event.

    What the operators do (RxJS 7):
    - [retry({count, delay})]: on an error of the source,
      [if (soFar++ < count)] it calls [delay(error, soFar)], with the counter
      already incremented, waits for the observable returned to emit and
      resubscribes to the source; otherwise it passes the error on.  The
      counter is not reset by values ([resetOnSuccess] is off) and a
      completion passes through.
    - [tap(f)] calls [f] on every value; [share()] is transparent for the
      single subscriber.
    - [finalize(f)] calls [f] when the subscriber is torn down: after its
      [error] handler has run, or on completion.
    - a [BehaviorSubject] holds the last value given to [next] and emits it
      to every new subscriber at once.
    - [WebSocketSubject.next(msg)] queues the message while the transport is
      not open; once it is open, it serialises the message and sends it, and
      when that throws the subject errors: its subscriber, here [retry], sees
      the error inside the call of [next].
    [Math.pow(2, retryCount)] and the product with 5000 are exact in IEEE
    arithmetic for every counter up to [maxRetries], so the delay is computed
    in [Z]. *)

Inductive ConnectionStatus : Type := connecting | connected | disconnected.

#[global] Instance ConnectionStatus_eq_dec : EqDecision ConnectionStatus.
Proof. solve_decision. Defined.

Inductive Phase : Type :=
| Subscribed              (* [retry] is subscribed to the WebSocketSubject *)
| Waiting (delay : Z)     (* [retry] waits for [timer(delay)] to resubscribe *)
| Ended.                  (* the subscriber is torn down, [finalize] has run *)

#[global] Instance Phase_eq_dec : EqDecision Phase.
Proof. solve_decision. Defined.

Record Pipeline : Type := mkPipeline {
  attempt : nat;
  soFar : nat;
  phase : Phase
}.

#[global] Instance Pipeline_eq_dec : EqDecision Pipeline.
Proof. solve_decision. Defined.

(** what the service writes to the console *)
Inductive ConsoleEntry : Type :=
| Log_initializing
| Warn_retry (retryCount : nat) (delay : Z)
| Warn_closed_unexpectedly
| Log_closed_intentionally
| Error_max_attempts
| Error_fatal
| Warn_send_not_connected
| Log_request_sent (action : RequestAction) (request_id : string).

#[global] Instance ConsoleEntry_eq_dec : EqDecision ConsoleEntry.
Proof. solve_decision. Defined.

Definition reconnectInterval : Z := 5000.
Definition maxReconnectInterval : Z := 60000.
Definition maxRetries : nat := 50.

(** the [delay] callback given to [retry], without its console output *)
Definition retry_delay (retryCount : nat) : Z :=
  Z.min (reconnectInterval * 2 ^ Z.of_nat retryCount) maxReconnectInterval.

Section WebSocketBaseService.
Variables Incoming Outgoing : Type.

Record WebSocketBaseService : Type := mkService {
  socket : option nat;                    (* [socket$]: the pipeline it belongs to, or null *)
  messages : list Incoming;               (* what [messages$] has emitted *)
  latestMessage : option Incoming;        (* the value of [latestMessage$] *)
  connectionStatus : ConnectionStatus;    (* the value of [connectionStatus$] *)
  statusEmitted : list ConnectionStatus;  (* every [connectionStatus$.next], oldest first *)
  isClosed : bool;
  pipelines : list Pipeline;              (* in the order [connect] built them *)
  sent : list (nat * Outgoing);           (* every [socket$.next(msg)] *)
  console : list ConsoleEntry
}.

(** the state once the field initialisers have run *)
Definition WebSocketBaseService_new : WebSocketBaseService :=
  mkService None [] None connecting [] false [] [] [].

Definition set_socket (s : option nat) (st : WebSocketBaseService) :=
  mkService s (messages st) (latestMessage st) (connectionStatus st)
            (statusEmitted st) (isClosed st) (pipelines st) (sent st) (console st).

Definition set_isClosed (b : bool) (st : WebSocketBaseService) :=
  mkService (socket st) (messages st) (latestMessage st) (connectionStatus st)
            (statusEmitted st) b (pipelines st) (sent st) (console st).

Definition set_pipelines (ps : list Pipeline) (st : WebSocketBaseService) :=
  mkService (socket st) (messages st) (latestMessage st) (connectionStatus st)
            (statusEmitted st) (isClosed st) ps (sent st) (console st).

(** [connectionStatus$.next(s)] *)
Definition status_next (s : ConnectionStatus) (st : WebSocketBaseService) :=
  mkService (socket st) (messages st) (latestMessage st) s
            (statusEmitted st ++ [s]) (isClosed st) (pipelines st) (sent st) (console st).

Definition console_write (e : ConsoleEntry) (st : WebSocketBaseService) :=
  mkService (socket st) (messages st) (latestMessage st) (connectionStatus st)
            (statusEmitted st) (isClosed st) (pipelines st) (sent st) (console st ++ [e]).

(** the [next] handler of the subscription:
    [messages$.next(msg); latestMessage$.next(msg)] *)
Definition deliver (msg : Incoming) (st : WebSocketBaseService) :=
  mkService (socket st) (messages st ++ [msg]) (Some msg) (connectionStatus st)
            (statusEmitted st) (isClosed st) (pipelines st) (sent st) (console st).

Definition socket_next (s : nat) (msg : Outgoing) (st : WebSocketBaseService) :=
  mkService (socket st) (messages st) (latestMessage st) (connectionStatus st)
            (statusEmitted st) (isClosed st) (pipelines st) (sent st ++ [(s, msg)])
            (console st).

(** [connect(attempt)]: the new pipeline is subscribed at once *)
Definition connect (attempt : nat) (st : WebSocketBaseService) : WebSocketBaseService :=
  let st := set_isClosed false st in
  let st := status_next connecting st in
  let st := set_socket (Some (length (pipelines st))) st in
  set_pipelines (pipelines st ++ [mkPipeline attempt 0 Subscribed]) st.

Definition initialize (st : WebSocketBaseService) : WebSocketBaseService :=
  connect 0 (console_write Log_initializing st).

(** The [finalize] callback of the pipeline built by [connect(attempt)].  The
    recursion of the source, [connect(attempt + 1)], goes through one more
    pipeline and not through this function. *)
Definition finalize_callback (attempt : nat) (st : WebSocketBaseService)
    : WebSocketBaseService :=
  let st := set_socket None st in
  if negb (isClosed st) && (attempt <? maxRetries)%nat then
    let st := status_next disconnected st in
    let st := console_write Warn_closed_unexpectedly st in
    connect (attempt + 1) st
  else if isClosed st then
    console_write Log_closed_intentionally st
  else
    let st := console_write Error_max_attempts st in
    status_next disconnected st.

(** the [error] handler of the subscription *)
Definition error_handler (st : WebSocketBaseService) : WebSocketBaseService :=
  console_write Error_fatal (status_next disconnected st).

Definition set_pipeline (i : nat) (p : Pipeline) (st : WebSocketBaseService) :=
  set_pipelines (<[i := p]> (pipelines st)) st.

(** The WebSocketSubject of pipeline [i] errors (socket error, or a close
    that is not clean).  [retry]: [if (soFar++ < count)] the [delay] callback
    is called with the incremented counter and the timer it returns is
    awaited; otherwise the error goes to the subscriber, whose [error]
    handler runs before its teardown runs the [finalize] callback. *)
Definition transport_error (i : nat) (st : WebSocketBaseService) : WebSocketBaseService :=
  match pipelines st !! i with
  | Some (mkPipeline attempt soFar Subscribed) =>
      if (soFar <? maxRetries)%nat then
        let retryCount := S soFar in
        let delay := retry_delay retryCount in
        let st := console_write (Warn_retry retryCount delay) st in
        set_pipeline i (mkPipeline attempt retryCount (Waiting delay)) st
      else
        let st := set_pipeline i (mkPipeline attempt (S soFar) Ended) st in
        finalize_callback attempt (error_handler st)
  | _ => st
  end.

(** the timer of pipeline [i] emits: [retry] resubscribes to the
    WebSocketSubject, which opens a new socket *)
Definition timer_fires (i : nat) (st : WebSocketBaseService) : WebSocketBaseService :=
  match pipelines st !! i with
  | Some (mkPipeline attempt soFar (Waiting _)) =>
      set_pipeline i (mkPipeline attempt soFar Subscribed) st
  | _ => st
  end.

(** the WebSocketSubject of pipeline [i] completes (clean close): [retry]
    passes the completion on, the subscriber has no [complete] handler, its
    teardown runs the [finalize] callback *)
Definition transport_complete (i : nat) (st : WebSocketBaseService) : WebSocketBaseService :=
  match pipelines st !! i with
  | Some (mkPipeline attempt soFar Subscribed) =>
      finalize_callback attempt (set_pipeline i (mkPipeline attempt soFar Ended) st)
  | _ => st
  end.

(** the WebSocketSubject of pipeline [i] emits [msg]: [tap] sets the status,
    then the [next] handler runs *)
Definition transport_message (i : nat) (msg : Incoming) (st : WebSocketBaseService)
    : WebSocketBaseService :=
  match pipelines st !! i with
  | Some (mkPipeline attempt soFar Subscribed) =>
      deliver msg (status_next connected st)
  | _ => st
  end.

(** [sendMessage(msg)].  [fails] is the answer of the platform to
    [socket$.next(msg)]: the transport of the socket is open and serialising
    or sending this message throws.  The subject then errors inside the
    call, which the pipeline sees as any other error of its transport, and
    [sendMessage] returns [true] all the same.  (A message queued before the
    transport is open is serialised when it opens; its failure is then an
    error the transport reports, the event [TransportError].) *)
Definition sendMessage (msg : Outgoing) (fails : bool) (st : WebSocketBaseService)
    : WebSocketBaseService * bool :=
  match socket st with
  | Some s =>
      let st := socket_next s msg st in
      (if fails then transport_error s st else st, true)
  | None => (console_write Warn_send_not_connected st, false)
  end.

(** [close()]: [socket$?.complete()] asks the transport to close and changes
    nothing in the service; what the transport then reports is an event. *)
Definition close (st : WebSocketBaseService) : WebSocketBaseService :=
  let st := set_isClosed true st in
  let st := status_next disconnected st in
  set_socket None st.

(** what a subscriber of [latestMessage$.asObservable()] receives at the
    moment it subscribes: a BehaviorSubject replays its value *)
Definition onMessage (st : WebSocketBaseService) : option Incoming := latestMessage st.

Inductive ChannelEvent : Type :=
| Initialize
| Close
| SendMessage (msg : Outgoing) (fails : bool)
| TransportError (i : nat)
| TransportComplete (i : nat)
| TransportMessage (i : nat) (msg : Incoming)
| TimerFires (i : nat).

Definition channel_step (st : WebSocketBaseService) (ev : ChannelEvent)
    : WebSocketBaseService :=
  match ev with
  | Initialize => initialize st
  | Close => close st
  | SendMessage msg fails => (sendMessage msg fails st).1
  | TransportError i => transport_error i st
  | TransportComplete i => transport_complete i st
  | TransportMessage i msg => transport_message i msg st
  | TimerFires i => timer_fires i st
  end.

Definition channel_run (evs : list ChannelEvent) : WebSocketBaseService :=
  foldl channel_step WebSocketBaseService_new evs.

End WebSocketBaseService.

Arguments mkService {_ _} _ _ _ _ _ _ _ _ _.
Arguments socket {_ _} _.
Arguments messages {_ _} _.
Arguments latestMessage {_ _} _.
Arguments connectionStatus {_ _} _.
Arguments statusEmitted {_ _} _.
Arguments isClosed {_ _} _.
Arguments pipelines {_ _} _.
Arguments sent {_ _} _.
Arguments console {_ _} _.
Arguments WebSocketBaseService_new {_ _}.
Arguments connect {_ _} _ _.
Arguments initialize {_ _} _.
Arguments finalize_callback {_ _} _ _.
Arguments error_handler {_ _} _.
Arguments transport_error {_ _} _ _.
Arguments timer_fires {_ _} _ _.
Arguments transport_complete {_ _} _ _.
Arguments transport_message {_ _} _ _ _.
Arguments sendMessage {_ _} _ _ _.
Arguments close {_ _} _.
Arguments onMessage {_ _} _.
Arguments Initialize {_ _}.
Arguments Close {_ _}.
Arguments SendMessage {_ _} _ _.
Arguments TransportError {_ _} _.
Arguments TransportComplete {_ _} _.
Arguments TransportMessage {_ _} _ _.
Arguments TimerFires {_ _} _.
Arguments channel_step {_ _} _ _.
Arguments channel_run {_ _} _.
Arguments set_socket {_ _} _ _.
Arguments set_isClosed {_ _} _ _.
Arguments set_pipelines {_ _} _ _.
Arguments set_pipeline {_ _} _ _ _.
Arguments status_next {_ _} _ _.
Arguments console_write {_ _} _ _.
Arguments deliver {_ _} _ _.
Arguments socket_next {_ _} _ _ _.

(** The services derived from the base class expose the same observable
    under their own names. *)
Definition onGPS {I O} (st : WebSocketBaseService I O) : option I := onMessage st.
Definition onResponse {I O} (st : WebSocketBaseService I O) : option I := onMessage st.
Definition onLog {I O} (st : WebSocketBaseService I O) : option I := onMessage st.

(** ** request.service.ts

    [RequestService] is the base service instantiated at the request
    message.  [crypto.randomUUID()] is a parameter: [uuid] is what it returns
    when [sendRequest] calls it, and [fails] is the answer of the platform to
    the [socket$.next] of [sendMessage].  [sendRequest] drops the boolean
    that [sendMessage] returns and writes its line to the console
    whatever that boolean was. *)

Section RequestService.
Context {Incoming Params : Type}.

Record RequestMessage : Type := mkRequest {
  req_action : RequestAction;
  req_params : option Params;
  req_request_id : string
}.

Definition sendRequest (action : RequestAction) (params : option Params)
    (request_id : option string) (uuid : string) (fails : bool)
    (st : WebSocketBaseService Incoming RequestMessage)
    : WebSocketBaseService Incoming RequestMessage * string :=
  let id := default uuid request_id in
  let payload := mkRequest action params id in
  let st := (sendMessage payload fails st).1 in
  let st := console_write (Log_request_sent action id) st in
  (st, id).

Definition RequestService_ping (uuid : string) (fails : bool)
    (st : WebSocketBaseService Incoming RequestMessage) :=
  sendRequest ping None None uuid fails st.

End RequestService.

Arguments RequestMessage : clear implicits.
Arguments mkRequest {_} _ _ _.

Local Close Scope Z_scope.

(** ** A concrete platform, for running the code on examples

    [Decimal6]: numbers with at most six decimals, held as an integer count
    of millionths; on these every operation [normalizeCoord] performs is
    exact in IEEE arithmetic as well, and [toFixed(6)] prints them without
    rounding.

    [IsoDate]: the date parser restricted to the UTC date-time form of the
    backend's timestamps, [YYYY-MM-DDTHH:mm:ss(.sss)Z]; any other string is
    an invalid date in this instance. *)

Module Decimal6.

Local Open Scope Z_scope.

Definition unit : Z := 1000000.

Definition of_Z (z : Z) : Z := z * unit.
Definition mul (a b : Z) : Z := (a * b) / unit.
Definition div (a b : Z) : Z := (a * unit) / b.
Definition pow (a b : Z) : Z := ((a / unit) ^ (b / unit)) * unit.
(** [Math.round]: the nearest integer, ties towards +infinity *)
Definition round (a : Z) : Z := ((a + unit / 2) / unit) * unit.

Definition digit_char (d : Z) : ascii := ascii_of_nat (48 + Z.to_nat d).

(** the decimal digits of [n], most significant first; [fuel] bounds their
    number *)
Fixpoint decimal_go (fuel : nat) (n : Z) (acc : string) : string :=
  match fuel with
  | O => acc
  | S fuel' =>
      let acc' := String (digit_char (n mod 10)) acc in
      if n / 10 =? 0 then acc' else decimal_go fuel' (n / 10) acc'
  end.

Definition decimal (n : Z) : string :=
  decimal_go (S (Z.to_nat (Z.log2 n))) n "".

Fixpoint zeros (n : nat) : string :=
  match n with O => "" | S n' => String "0" (zeros n') end.

Definition pad_left (n : nat) (s : string) : string :=
  zeros (n - String.length s) +:+ s.

(** [Number.prototype.toFixed(d)] *)
Definition to_fixed (a d : Z) : string :=
  let x := Z.abs a in
  let n := (2 * x * 10 ^ d + unit) / (2 * unit) in
  let ds := pad_left (Z.to_nat d + 1) (decimal n) in
  let k := (String.length ds - Z.to_nat d)%nat in
  let int_part := String.substring 0 k ds in
  let frac_part := String.substring k (Z.to_nat d) ds in
  (if a <? 0 then "-" else "") +:+ int_part +:+
  (if d =? 0 then "" else "." +:+ frac_part).

#[global] Instance decimal6 : JSNumber := {|
  number := Z;
  number_of_Z := of_Z;
  Math_pow := pow;
  Math_round := round;
  num_mul := mul;
  num_div := div;
  toFixed := to_fixed
|}.

(** the number written [i.f] with six decimals [f] *)
Definition dec (i f : Z) : Z := i * unit + f.

End Decimal6.

Module IsoDate.

Local Open Scope Z_scope.

Definition digit_of (c : ascii) : option Z :=
  let n := Z.of_nat (nat_of_ascii c) in
  if (48 <=? n) && (n <=? 57) then Some (n - 48) else None.

Fixpoint number_of (cs : list ascii) (acc : Z) : option Z :=
  match cs with
  | [] => Some acc
  | c :: cs' => d ← digit_of c; number_of cs' (acc * 10 + d)
  end.

Definition digits (n : nat) (cs : list ascii) : option (Z * list ascii) :=
  if (length (take n cs) =? n)%nat
  then v ← number_of (take n cs) 0; Some (v, drop n cs)
  else None.

Definition expect (c : ascii) (cs : list ascii) : option (list ascii) :=
  match cs with
  | c' :: cs' => if decide (c = c') then Some cs' else None
  | [] => None
  end.

Definition fraction (cs : list ascii) : option (Z * list ascii) :=
  match expect "." cs with
  | Some cs' => digits 3 cs'
  | None => Some (0, cs)
  end.

Definition is_leap (y : Z) : bool :=
  ((y mod 4 =? 0) && negb (y mod 100 =? 0)) || (y mod 400 =? 0).

Definition days_in_month (y m : Z) : Z :=
  if m =? 2 then (if is_leap y then 29 else 28)
  else if (m =? 4) || (m =? 6) || (m =? 9) || (m =? 11) then 30 else 31.

Definition parse (s : string) : option Z :=
  '(y, r) ← digits 4 (list_ascii_of_string s);
  r ← expect "-" r;
  '(m, r) ← digits 2 r;
  r ← expect "-" r;
  '(d, r) ← digits 2 r;
  r ← expect "T" r;
  '(h, r) ← digits 2 r;
  r ← expect ":" r;
  '(mi, r) ← digits 2 r;
  r ← expect ":" r;
  '(sec, r) ← digits 2 r;
  '(ms, r) ← fraction r;
  r ← expect "Z" r;
  if (length r =? 0)%nat && (1 <=? m) && (m <=? 12) && (1 <=? d)
     && (d <=? days_in_month y m) && (h <=? 23) && (mi <=? 59) && (sec <=? 59)
  then Some (ES.MakeDate (ES.MakeDay y (m - 1) d) (ES.MakeTime h mi sec ms))
  else None.

Definition time_value (s : string) : jsnum :=
  match parse s with
  | Some t => ES.TimeClip (Num t)
  | None => NaN
  end.

#[global] Instance iso_date : JSDate := {| Date_new := time_value |}.

End IsoDate.

(** ** date-utc.service.ts, the calendar helpers

    The local-time getters of a [Date] and its constructor from components
    go through the time zone of the browser, which ECMA-262 (21.4.1.7-9)
    leaves to the implementation as [LocalTZA(t, isUTC)]: the offset of local
    time from UTC in milliseconds, at the UTC instant [t] when [isUTC] holds
    and at the local time [t] otherwise. *)

Class JSLocalTime := {
  LocalTZA : Z → bool → Z
}.

Module DatePrototype.

Local Open Scope Z_scope.

Definition msFromTime (t : Z) : Z := t mod 1000.

Definition getUTCMilliseconds := ES.getter msFromTime.

(** [a + b] on numbers *)
Definition js_add (a b : jsnum) : jsnum :=
  match a, b with
  | Num x, Num y => Num (x + y)
  | _, _ => NaN
  end.

(** [setUTCSeconds(sec, ms)] on a [Date] whose time value is [t]; the result
    is the new time value *)
Definition setUTCSeconds (t sec ms : jsnum) : jsnum :=
  match t, sec, ms with
  | Num t, Num s, Num milli =>
      ES.TimeClip (Num (ES.MakeDate (ES.Day t)
                          (ES.MakeTime (ES.HourFromTime t) (ES.MinFromTime t) s milli)))
  | _, _, _ => NaN
  end.

(** [setUTCMinutes(min)] *)
Definition setUTCMinutes (t min : jsnum) : jsnum :=
  match t, min with
  | Num t, Num m =>
      ES.TimeClip (Num (ES.MakeDate (ES.Day t)
                          (ES.MakeTime (ES.HourFromTime t) m (ES.SecFromTime t) (msFromTime t))))
  | _, _ => NaN
  end.

(** [Number.prototype.toString()] on an integer or [NaN] *)
Definition Number_toString (a : jsnum) : string :=
  match a with
  | NaN => "NaN"%string
  | Num z => if z <? 0 then ("-" +:+ Decimal6.decimal (- z))%string else Decimal6.decimal z
  end.

(** [s.padStart(n, '0')] *)
Definition padStart0 (n : nat) (s : string) : string := Decimal6.pad_left n s.

Section LocalTime.
Context `{JSLocalTime}.

Definition LocalTime (t : Z) : Z := t + LocalTZA t true.
Definition UTC (t : Z) : Z := t - LocalTZA t false.

Definition getFullYear := ES.getter (λ t, ES.YearFromTime (LocalTime t)).
Definition getMonth := ES.getter (λ t, ES.MonthFromTime (LocalTime t)).
Definition getDate := ES.getter (λ t, ES.DateFromTime (LocalTime t)).

(** [new Date(year, month, date)]: the components are read in local time; a
    year from 0 to 99 stands for 1900 + year. *)
Definition Date_of_components (year month date : jsnum) : jsnum :=
  match year, month, date with
  | Num y, Num m, Num dt =>
      let yr := if (0 <=? y) && (y <=? 99) then 1900 + y else y in
      ES.TimeClip (Num (UTC (ES.MakeDate (ES.MakeDay yr m dt) (ES.MakeTime 0 0 0 0))))
  | _, _, _ => NaN
  end.

End LocalTime.

End DatePrototype.

Section DateUtcCalendar.
Context `{JSLocalTime}.

Local Open Scope Z_scope.

(** [buildUtcDate(date, hours, minutes)]; [hours] and [minutes] are numbers
    that hold an integer or [NaN]. *)
Definition buildUtcDate (date hours minutes : jsnum) : jsnum :=
  ES.TimeClip
    (ES.Date_UTC
       (DatePrototype.getFullYear date) (DatePrototype.getMonth date)
       (DatePrototype.getDate date) hours minutes (Num 0)).

(** [formatUtcTime(date)] *)
Definition formatUtcTime (date : jsnum) : string :=
  (DatePrototype.padStart0 2 (DatePrototype.Number_toString (ES.getUTCHours date))
   +:+ ":" +:+
   DatePrototype.padStart0 2 (DatePrototype.Number_toString (ES.getUTCMinutes date)))%string.

(** [toUtcDateOnly(date)] *)
Definition toUtcDateOnly (date : jsnum) : jsnum :=
  DatePrototype.Date_of_components
    (ES.getUTCFullYear date) (ES.getUTCMonth date) (ES.getUTCDate date).

(** [ceilToNextMinute(date)]; [rounded] is threaded through the two setter
    calls that mutate it. *)
Definition ceilToNextMinute (date : jsnum) : jsnum :=
  let rounded := ES.TimeClip date in
  if js_gt (ES.getUTCSeconds rounded) (Num 0)
     || js_gt (DatePrototype.getUTCMilliseconds rounded) (Num 0)
  then
    let rounded := DatePrototype.setUTCSeconds rounded (Num 0) (Num 0) in
    DatePrototype.setUTCMinutes rounded
      (DatePrototype.js_add (ES.getUTCMinutes rounded) (Num 1))
  else
    DatePrototype.setUTCSeconds rounded (Num 0) (Num 0).

(** [floorToPrevMinute(date)] *)
Definition floorToPrevMinute (date : jsnum) : jsnum :=
  let rounded := ES.TimeClip date in
  DatePrototype.setUTCSeconds rounded (Num 0) (Num 0).

End DateUtcCalendar.

(** a browser whose zone keeps one offset from UTC all year *)
Module FixedZone.

(** UTC-05:00 *)
#[global] Instance bogota : JSLocalTime := {| LocalTZA := λ _ _, (-18000000)%Z |}.

End FixedZone.

(** * The vocabulary of the specification *)

Section TraceSpecification.
Context `{JSNumber} `{JSDate}.

(** the parsed timestamp of a point *)
Definition pts (p : TracePoint) : jsnum := parseTimestamp (Timestamp p).

(** [p] may stand before [q]: [q] is not strictly earlier than [p] *)
Definition not_after (p q : TracePoint) : Prop := js_lt (pts q) (pts p) = false.

(** sorted ascending by parsed timestamp: no point is strictly earlier than
    one that stands before it *)
Definition ascending (l : list TracePoint) : Prop := StronglySorted not_after l.

(** the timestamp is missing or parses to a valid date *)
Definition dated (p : TracePoint) : Prop := pts p ≠ NaN.

(** The [while] loop of [insertSorted], as a relation: [loop_runs buffer ts
    left right r] when the loop entered with [left] and [right] reads only
    elements of the buffer and leaves with [left = r]. *)
Inductive loop_runs (buffer : list TracePoint) (ts : jsnum) : nat → nat → nat → Prop :=
| loop_done left right :
    ¬ left < right →
    loop_runs buffer ts left right left
| loop_go_right left right q r :
    left < right →
    buffer !! ((left + right) / 2) = Some q →
    js_lt (pts q) ts = true →
    loop_runs buffer ts ((left + right) / 2 + 1) right r →
    loop_runs buffer ts left right r
| loop_go_left left right q r :
    left < right →
    buffer !! ((left + right) / 2) = Some q →
    js_lt (pts q) ts = false →
    loop_runs buffer ts left ((left + right) / 2) r →
    loop_runs buffer ts left right r.

(** Spec side.  De-duplication by identity key, first occurrence wins:
    [seen] holds the keys met so far. *)
Fixpoint first_by_key (seen : list string) (l : list TracePoint) : list TracePoint :=
  match l with
  | [] => []
  | p :: l' =>
      if decide (hashPoint p ∈ seen) then first_by_key seen l'
      else p :: first_by_key (hashPoint p :: seen) l'
  end.

Definition dedup (l : list TracePoint) : list TracePoint := first_by_key [] l.

(** Spec side.  [M = dedup(H ++ {p ∈ L : timestamp(p) > timestamp(last(H))})]
    when [H] is non-empty, else [M = dedup(L)]. *)
Definition merged (H_ L : list TracePoint) : list TracePoint :=
  match last H_ with
  | Some h => dedup (H_ ++ filter (λ p, js_gt (pts p) (pts h) = true) L)
  | None => dedup L
  end.

(** the merged buffer is the merge of the two others *)
Definition merged_ok (st : TraceService) : Prop :=
  finalBuffer st = merged (dummyBuffer st) (realtimeBuffer st).

(** an array element passes the handler's checks *)
Definition accepted (p : option RawPoint) : Prop :=
  ∃ lat lon ts, p = Some (mkRaw (Some lat) (Some lon) ts).

#[global] Instance accepted_dec p : Decision (accepted p).
Proof.
  destruct p as [[[lat|] [lon|] ts]|];
    try (right; intros (? & ? & ? & ?); discriminate).
  left. by exists lat, lon, ts.
Defined.

(** the point an array element becomes when it passes the handler's checks *)
Definition checked (p : option RawPoint) : option TracePoint :=
  match p with
  | Some (mkRaw (Some lat) (Some lon) ts) => Some (mkPoint lat lon ts)
  | _ => None
  end.

(** both buffers are sorted and hold dated points only *)
Definition buffers_ascending (st : TraceService) : Prop :=
  ascending (dummyBuffer st) ∧ Forall dated (dummyBuffer st) ∧
  ascending (realtimeBuffer st) ∧ Forall dated (realtimeBuffer st).

(** every point the event carries has a missing or a valid timestamp *)
Definition dated_event (ev : TraceEvent) : Prop :=
  match ev with
  | GpsEmission data => ∀ q, checked data = Some q → dated (normalizePoint q)
  | ResponseEmission (Some m) =>
      ∀ points, data m = Some points →
        Forall (λ q, dated (normalizePoint q)) (omap checked points)
  | _ => True
  end.

(** the event is not a batch answer in which no point passes the checks *)
Definition effective (ev : TraceEvent) : Prop :=
  match ev with
  | ResponseEmission (Some m) =>
      action m = get_history → ∀ points, data m = Some points → Exists accepted points
  | _ => True
  end.

(** the two identity indexes hold the keys of their buffers, and no buffer
    holds a key twice *)
Definition index_ok (st : TraceService) : Prop :=
  (∀ h, h ∈ dummyHashSet st ↔ h ∈ hashPoint <$> dummyBuffer st) ∧
  NoDup (hashPoint <$> dummyBuffer st) ∧
  (∀ h, h ∈ realtimeHashSet st ↔ h ∈ hashPoint <$> realtimeBuffer st) ∧
  NoDup (hashPoint <$> realtimeBuffer st) ∧
  NoDup (hashPoint <$> finalBuffer st).

(** two states that differ in the merged buffer only *)
Definition same_buffers (st st' : TraceService) : Prop :=
  dummyBuffer st = dummyBuffer st' ∧ dummyHashSet st = dummyHashSet st' ∧
  realtimeBuffer st = realtimeBuffer st' ∧ realtimeHashSet st = realtimeHashSet st'.

End TraceSpecification.

Section ChannelSpecification.
Context {Incoming Outgoing : Type}.
Implicit Types (st : WebSocketBaseService Incoming Outgoing).
Implicit Types (ev : ChannelEvent Incoming Outgoing).

(** what one step may do once the service is closed *)
Definition closed_step_ok st st' : Prop :=
  isClosed st' = true ∧ socket st' = None ∧
  length (pipelines st') = length (pipelines st) ∧
  ∃ more, statusEmitted st' = statusEmitted st ++ more ∧ (connecting ∉ more) ∧
          (connectionStatus st' = connectionStatus st ∨ connectionStatus st' ∈ more).

(** the counters of a pipeline are within the retry budget, and a pending
    timer carries the delay of the retry it stands for *)
Definition pipeline_ok (p : Pipeline) : Prop :=
  attempt p ≤ maxRetries ∧
  match phase p with
  | Subscribed => soFar p ≤ maxRetries
  | Waiting d => 1 ≤ soFar p ≤ maxRetries ∧ d = retry_delay (soFar p)
  | Ended => soFar p ≤ S maxRetries
  end.

(** the socket handle belongs to the pipeline built last, which has not
    ended *)
Definition handle_ok st : Prop :=
  ∀ i, socket st = Some i →
    S i = length (pipelines st) ∧
    ∃ p, pipelines st !! i = Some p ∧ phase p ≠ Ended.

(** the emissions of [connecting] are as many as the pipelines, those of
    [connected] as many as the messages, and the status is the last
    emission *)
Definition emissions_ok st : Prop :=
  length (filter (λ s, s = connecting) (statusEmitted st)) = length (pipelines st) ∧
  length (filter (λ s, s = connected) (statusEmitted st)) = length (messages st) ∧
  connectionStatus st = default connecting (last (statusEmitted st)).

(** a pipeline that has ended after [connect(maxRetries)] built it *)
Definition gave_up (ps : list Pipeline) : Prop :=
  ∃ p, p ∈ ps ∧ attempt p = maxRetries ∧ phase p = Ended.




End ChannelSpecification.

(** * Example data on the concrete platform *)

Local Open Scope string_scope.

(** a point with whole-degree coordinates *)
Definition pt (lat lon : Z) (ts : option string) : TracePoint :=
  mkPoint (Decimal6.of_Z lat) (Decimal6.of_Z lon) ts.

Definition at_second_1 : option string := Some "1970-01-01T00:00:01Z".
Definition at_second_3 : option string := Some "1970-01-01T00:00:03Z".
Definition at_second_5 : option string := Some "1970-01-01T00:00:05Z".
Definition at_second_10 : option string := Some "1970-01-01T00:00:10Z".
Definition at_second_15 : option string := Some "1970-01-01T00:00:15Z".
Definition at_second_20 : option string := Some "1970-01-01T00:00:20Z".
Definition at_second_25 : option string := Some "1970-01-01T00:00:25Z".
Definition unparseable : option string := Some "invalid".
Definition before_epoch : option string := Some "1969-12-31T23:59:59Z".

(** Closed facts are decided by evaluation.  The tactic evaluates a boolean
    and never normalises the platform instances themselves. *)
Ltac by_evaluation := cbv zeta; apply (bool_decide_unpack _); vm_compute; exact I.


(** an array element with whole-degree coordinates *)
Definition raw (lat lon : Z) (ts : option string) : option RawPoint :=
  Some (mkRaw (Some (Decimal6.of_Z lat)) (Some (Decimal6.of_Z lon)) ts).

(** a [get_history] answer carrying [points] *)
Definition history_answer (points : list (option RawPoint)) : TraceEvent :=
  ResponseEmission (Some (mkResponse get_history None success (Some points))).

(** a channel whose messages are strings *)
Definition Channel : Type := WebSocketBaseService string string.
Definition Event : Type := ChannelEvent string string.

Definition run (evs : list Event) : Channel := channel_run evs.

(** a connection attempt of pipeline [i] fails and its retry timer fires *)
Definition failed_attempt (i : nat) : list Event := [TransportError i; TimerFires i].

(** fifty connection attempts in a row fail *)
Definition fifty_failures : list Event :=
  Initialize :: concat (replicate 49 (failed_attempt 0)) ++ [TransportError 0].

(** every attempt of pipeline [i] fails, up to the error [retry] lets through *)
Definition failing_pipeline (i : nat) : list Event :=
  concat (replicate 50 (failed_attempt i)) ++ [TransportError i].

Definition exhausting_run : list Event :=
  Initialize :: concat (failing_pipeline <$> seq 0 51).

Definition is_transport_error (ev : Event) : bool :=
  match ev with TransportError _ => true | _ => false end.

(** every element of a concrete list, one after the other *)
Ltac each_element :=
  repeat first
    [ apply SSorted_nil | apply SSorted_cons | apply Forall_nil
    | apply Forall_cons; split ];
  try exact I.

(** the timestamps of concrete points compare as stated *)
Ltac dated_by_evaluation :=
  unfold ascending; each_element; unfold not_after, dated; by_evaluation.

(** a concrete batch answer whose first element passes the checks *)
Ltac effective_by_cases :=
  each_element;
  intros _ points [= <-]; apply Exists_cons_hd; by eexists _, _, _.

Ltac dated_event_by_cases :=
  each_element; unfold dated_event, history_answer, raw;
  intros ? [= <-]; cbn [data omap list_omap checked]; dated_by_evaluation.

Local Close Scope string_scope.

(** * Properties of the point reconciliation buffer *)

Section TraceProperties.
Context `{JSNumber} `{JSDate}.

Lemma mid_bounds left right : left < right → left ≤ (left + right) / 2 < right.
Proof.
  intros Hlt. split.
  - apply Nat.div_le_lower_bound; lia.
  - apply Nat.Div0.div_lt_upper_bound; lia.
Qed.

Lemma ts_at_lookup buffer i q : buffer !! i = Some q → ts_at buffer i = pts q.
Proof. unfold ts_at. by intros ->. Qed.

(** The loop terminates within [right - left] turns and never reads outside
    the buffer. *)
Lemma insertSorted_loop_runs fuel buffer ts left right :
  right ≤ length buffer → right - left ≤ fuel →
  loop_runs buffer ts left right (insertSorted_loop fuel buffer ts left right).
Proof.
  revert left right. induction fuel as [|fuel IH]; intros left right Hlen Hfuel.
  - cbn [insertSorted_loop]. apply loop_done. lia.
  - cbn [insertSorted_loop]. destruct (Nat.ltb_spec left right) as [Hlt|Hge].
    + pose proof (mid_bounds left right Hlt) as [Hlo Hhi].
      destruct (lookup_lt_is_Some_2 buffer ((left + right) / 2)) as [q Hq]; [lia|].
      rewrite (ts_at_lookup _ _ _ Hq).
      destruct (js_lt (pts q) ts) eqn:Hcmp.
      * eapply loop_go_right; eauto. apply IH; lia.
      * eapply loop_go_left; eauto. apply IH; lia.
    + apply loop_done. lia.
Qed.

Lemma loop_runs_bounds buffer ts left right r :
  loop_runs buffer ts left right r → left ≤ right → left ≤ r ≤ right.
Proof.
  induction 1 as [left right Hn|left right q r Hlt Hq Hc Hrun IH|left right q r Hlt Hq Hc Hrun IH];
    intros Hle.
  - lia.
  - pose proof (mid_bounds left right Hlt). lia.
  - pose proof (mid_bounds left right Hlt). lia.
Qed.

Lemma js_lt_false_le x y : js_lt (Num x) (Num y) = false → (y ≤ x)%Z.
Proof. simpl. intros Hc. apply Z.ltb_ge in Hc. lia. Qed.

Lemma js_lt_true_lt a b : js_lt a b = true → ∃ x y, a = Num x ∧ b = Num y ∧ (x < y)%Z.
Proof.
  destruct a as [|x], b as [|y]; simpl; try discriminate.
  intros Hc. apply Z.ltb_lt in Hc. eauto.
Qed.

Lemma ascending_lookup l i j p q :
  ascending l → i < j → l !! i = Some p → l !! j = Some q → not_after p q.
Proof.
  intros Hs Hij Hp Hq.
  rewrite <- (take_drop j l) in Hs, Hp.
  pose proof (lookup_lt_Some _ _ _ Hq) as Hj.
  rewrite lookup_app_l in Hp by (rewrite length_take; lia).
  eapply StronglySorted_app_1_elem_of; [exact Hs| |].
  - eapply list_elem_of_lookup_2. exact Hp.
  - eapply list_elem_of_lookup_2 with (i := 0). rewrite lookup_drop.
    replace (j + 0) with j by lia. exact Hq.
Qed.

(** The loop computes the lower bound: on a sorted buffer of dated points,
    everything before the index found is strictly earlier than [ts] and
    nothing from it on is. *)
Lemma loop_runs_lower_bound buffer ts left right r :
  loop_runs buffer ts left right r →
  ascending buffer → Forall dated buffer →
  (∀ i q, i < left → buffer !! i = Some q → js_lt (pts q) ts = true) →
  (∀ i q, right ≤ i → buffer !! i = Some q → js_lt (pts q) ts = false) →
  (∀ i q, i < r → buffer !! i = Some q → js_lt (pts q) ts = true) ∧
  (∀ i q, r ≤ i → buffer !! i = Some q → js_lt (pts q) ts = false).
Proof.
  intros Hrun Hs Hd.
  induction Hrun as [left right Hn|left right q r Hlt Hq Hc Hrun IH|left right q r Hlt Hq Hc Hrun IH];
    intros Hlo Hhi.
  - split; [exact Hlo|]. intros i q Hi. apply Hhi. lia.
  - apply IH; [|exact Hhi].
    intros i p Hi Hp.
    destruct (decide (i = (left + right) / 2)) as [->|Hne]; [congruence|].
    assert (Hord : not_after p q).
    { apply (ascending_lookup buffer i ((left + right) / 2)); [exact Hs|lia|exact Hp|exact Hq]. }
    destruct (js_lt_true_lt _ _ Hc) as (x & y & Hx & -> & Hxy).
    unfold not_after in Hord. rewrite Hx in Hord.
    assert (Hdp : dated p).
    { eapply Forall_forall in Hd; [exact Hd|]. eapply list_elem_of_lookup_2; eauto. }
    unfold dated in Hdp. destruct (pts p) as [|z]; [done|].
    apply js_lt_false_le in Hord. simpl. apply Z.ltb_lt. lia.
  - apply IH; [exact Hlo|].
    intros i p Hi Hp.
    destruct (decide (i = (left + right) / 2)) as [->|Hne]; [congruence|].
    assert (Hord : not_after q p).
    { apply (ascending_lookup buffer ((left + right) / 2) i); [exact Hs|lia|exact Hq|exact Hp]. }
    assert (Hdp : dated p).
    { eapply Forall_forall in Hd; [exact Hd|]. eapply list_elem_of_lookup_2; eauto. }
    assert (Hdq : dated q).
    { eapply Forall_forall in Hd; [exact Hd|]. eapply list_elem_of_lookup_2; eauto. }
    unfold dated, not_after in *.
    destruct (pts p) as [|z]; [done|]. destruct (pts q) as [|w]; [done|].
    destruct ts as [|t]; [done|].
    apply js_lt_false_le in Hord. apply js_lt_false_le in Hc.
    simpl. apply Z.ltb_ge. lia.
Qed.

(** [insertSorted] keeps a buffer of dated points sorted. *)
Lemma insertSorted_ascending buffer point :
  ascending buffer → Forall dated buffer →
  ascending (insertSorted buffer point).1.
Proof.
  intros Hs Hd. unfold insertSorted, splice0. simpl.
  set (ts := parseTimestamp (Timestamp point)).
  set (r := insertSorted_loop (length buffer) buffer ts 0 (length buffer)).
  assert (Hrun : loop_runs buffer ts 0 (length buffer) r)
    by (apply insertSorted_loop_runs; lia).
  clearbody r.
  destruct (loop_runs_lower_bound _ _ _ _ _ Hrun Hs Hd) as [Hbefore Hafter].
  { intros i q Hi. lia. }
  { intros i q Hi Hq. apply lookup_lt_Some in Hq. lia. }
  unfold ascending in *.
  rewrite <- (take_drop r buffer) in Hs.
  apply StronglySorted_app in Hs as (Hcross & Hl & Hr).
  apply StronglySorted_app. split_and!.
  - intros p q Hp Hq. apply list_elem_of_lookup in Hp as [i Hp].
    pose proof (lookup_lt_Some _ _ _ Hp) as Hi. rewrite length_take in Hi.
    rewrite lookup_take_lt in Hp by lia.
    apply elem_of_cons in Hq as [->|Hq].
    + specialize (Hbefore i p ltac:(lia) Hp).
      destruct (js_lt_true_lt _ _ Hbefore) as (x & y & Hx & Hy & Hxy).
      unfold not_after, pts. fold ts. rewrite Hy. fold (pts p). rewrite Hx.
      simpl. apply Z.ltb_ge. lia.
    + apply Hcross; [|exact Hq]. apply (list_elem_of_lookup_2 _ i).
      rewrite lookup_take_lt by lia. exact Hp.
  - exact Hl.
  - apply StronglySorted_cons. split; [|exact Hr].
    apply Forall_forall. intros q Hq. apply list_elem_of_lookup in Hq as [i Hq].
    rewrite lookup_drop in Hq. unfold not_after. fold ts.
    apply (Hafter (r + i)); [lia|exact Hq].
Qed.

(** ** Identity keys and the live buffer *)

Lemma hashPoint_normalizePoint_eq p q :
  normalizeCoord (Latitude p) = normalizeCoord (Latitude q) →
  normalizeCoord (Longitude p) = normalizeCoord (Longitude q) →
  default "" (Timestamp p) = default "" (Timestamp q) →
  hashPoint (normalizePoint p) = hashPoint (normalizePoint q).
Proof.
  intros Hlat Hlon Hts. unfold hashPoint, normalizePoint. simpl.
  by rewrite Hlat, Hlon, Hts.
Qed.

(** after [addToRealtime], the key of the point is in the live index *)
Lemma addToRealtime_indexed st p :
  hashPoint (normalizePoint p) ∈ realtimeHashSet (addToRealtime st p).
Proof.
  unfold addToRealtime.
  destruct (decide (hashPoint (normalizePoint p) ∈ realtimeHashSet st)) as [Hin|Hout].
  - exact Hin.
  - simpl. set_solver.
Qed.

Lemma addToRealtime_known st p :
  hashPoint (normalizePoint p) ∈ realtimeHashSet st → addToRealtime st p = st.
Proof. intros Hin. unfold addToRealtime. by rewrite decide_True. Qed.

Lemma addToRealtime_fresh st p :
  hashPoint (normalizePoint p) ∉ realtimeHashSet st →
  realtimeBuffer (addToRealtime st p) =
    (insertSorted (realtimeBuffer st) (normalizePoint p)).1 ∧
  dummyBuffer (addToRealtime st p) = dummyBuffer st.
Proof. intros Hout. unfold addToRealtime. by rewrite decide_False. Qed.

(** C5. Appending a point whose normalized latitude, normalized longitude
    and timestamp-or-empty are those of a point appended just before leaves
    the whole buffer state as it is: the live buffer, its index and the
    merged sequence. *)
Theorem appendLive_idempotent st p q :
  normalizeCoord (Latitude p) = normalizeCoord (Latitude q) →
  normalizeCoord (Longitude p) = normalizeCoord (Longitude q) →
  default "" (Timestamp p) = default "" (Timestamp q) →
  addToRealtime (addToRealtime st p) q = addToRealtime st p ∧
  realtimeBuffer (addToRealtime (addToRealtime st p) q) =
    realtimeBuffer (addToRealtime st p) ∧
  getTrace (addToRealtime (addToRealtime st p) q) = getTrace (addToRealtime st p).
Proof.
  intros Hlat Hlon Hts.
  assert (Hsame : addToRealtime (addToRealtime st p) q = addToRealtime st p).
  { apply addToRealtime_known.
    rewrite <- (hashPoint_normalizePoint_eq p q Hlat Hlon Hts).
    apply addToRealtime_indexed. }
  by rewrite Hsame.
Qed.

(** Feeding points whose timestamps are missing or valid keeps the live
    buffer sorted. *)
Lemma addToRealtime_ascending st p :
  ascending (realtimeBuffer st) → Forall dated (realtimeBuffer st) →
  dated (normalizePoint p) →
  ascending (realtimeBuffer (addToRealtime st p)) ∧
  Forall dated (realtimeBuffer (addToRealtime st p)).
Proof.
  intros Hs Hd Hp.
  destruct (decide (hashPoint (normalizePoint p) ∈ realtimeHashSet st)) as [Hin|Hout].
  - by rewrite addToRealtime_known.
  - destruct (addToRealtime_fresh st p Hout) as [-> _]. split.
    + by apply insertSorted_ascending.
    + unfold insertSorted, splice0. simpl.
      apply Forall_app. split; [by apply Forall_take|].
      apply Forall_cons. split; [exact Hp|by apply Forall_drop].
Qed.

Lemma appendLive_dated_ascending (ps : list TracePoint) :
  Forall (λ p, dated (normalizePoint p)) ps →
  ascending (realtimeBuffer (foldl addToRealtime TraceService_new ps)).
Proof.
  intros Hps.
  cut (ascending (realtimeBuffer (foldl addToRealtime TraceService_new ps)) ∧
       Forall dated (realtimeBuffer (foldl addToRealtime TraceService_new ps))).
  { by intros [? _]. }
  induction ps as [|p ps IH] using rev_ind.
  - simpl. split; constructor.
  - apply Forall_app in Hps as [Hps Hp]. rewrite Forall_singleton in Hp.
    rewrite foldl_snoc. destruct (IH Hps) as [IHs IHd].
    apply addToRealtime_ascending; [exact IHs|exact IHd|exact Hp].
Qed.

(** ** The merged sequence *)

Lemma first_by_key_sublist seen l : sublist (first_by_key seen l) l.
Proof.
  revert seen. induction l as [|p l IH]; intros seen; simpl.
  - constructor.
  - destruct (decide (hashPoint p ∈ seen)).
    + apply sublist_cons. apply IH.
    + apply sublist_skip. apply IH.
Qed.

Lemma first_by_key_fresh seen l p :
  p ∈ first_by_key seen l → hashPoint p ∉ seen.
Proof.
  revert seen. induction l as [|q l IH]; intros seen; simpl.
  - by intros ?%elem_of_nil.
  - destruct (decide (hashPoint q ∈ seen)) as [Hin|Hout].
    + apply IH.
    + intros [->|Hp]%elem_of_cons; [exact Hout|].
      apply IH in Hp. set_solver.
Qed.

Lemma first_by_key_NoDup seen l : NoDup (hashPoint <$> first_by_key seen l).
Proof.
  revert seen. induction l as [|p l IH]; intros seen; simpl.
  - constructor.
  - destruct (decide (hashPoint p ∈ seen)) as [Hin|Hout]; [apply IH|].
    rewrite fmap_cons. constructor; [|apply IH].
    intros (q & Heq & Hq)%list_elem_of_fmap.
    apply first_by_key_fresh in Hq. rewrite Heq in Hq. set_solver.
Qed.

Lemma first_by_key_covers seen l p :
  p ∈ l → hashPoint p ∉ seen →
  ∃ q, q ∈ first_by_key seen l ∧ hashPoint q = hashPoint p.
Proof.
  revert seen. induction l as [|x l IH]; intros seen Hp Hseen; simpl.
  - by apply elem_of_nil in Hp.
  - destruct (decide (hashPoint x ∈ seen)) as [Hin|Hout].
    + apply elem_of_cons in Hp as [->|Hp]; [done|]. by apply IH.
    + destruct (decide (hashPoint x = hashPoint p)) as [Heq|Hne].
      * exists x. split; [apply list_elem_of_here|exact Heq].
      * apply elem_of_cons in Hp as [->|Hp]; [done|].
        destruct (IH (hashPoint x :: seen) Hp) as (q & Hq & Hk).
        { intros [Heq|Hin]%elem_of_cons; [congruence|by apply Hseen]. }
        exists q. split; [by apply list_elem_of_further|exact Hk].
Qed.

(** [dedup] keeps the order of the input, holds every key once, and holds
    every key of the input. *)
Lemma dedup_spec l :
  sublist (dedup l) l ∧
  NoDup (hashPoint <$> dedup l) ∧
  ∀ p, p ∈ l → ∃ q, q ∈ dedup l ∧ hashPoint q = hashPoint p.
Proof.
  split_and!.
  - apply first_by_key_sublist.
  - apply first_by_key_NoDup.
  - intros p Hp. apply first_by_key_covers; [exact Hp|]. apply not_elem_of_nil.
Qed.

(** the [for] loop of [rebuildFinalBuffer] computes [first_by_key] *)
Lemma combine_step_first_by_key l acc (seen : gset string) (keys : list string) :
  (∀ h, h ∈ seen ↔ h ∈ keys) →
  (foldl combine_step (acc, seen) l).1 = acc ++ first_by_key keys l.
Proof.
  revert acc seen keys. induction l as [|p l IH]; intros acc seen keys Hkeys; simpl.
  - by rewrite app_nil_r.
  - unfold combine_step at 2. simpl.
    destruct (decide (hashPoint p ∈ seen)) as [Hin|Hout].
    + rewrite decide_True by (by apply Hkeys). by apply IH.
    + rewrite decide_False by (by rewrite <- Hkeys).
      rewrite (IH _ _ (hashPoint p :: keys)).
      * by rewrite <- app_assoc.
      * intros h. rewrite elem_of_union, elem_of_singleton, elem_of_cons, Hkeys. done.
Qed.

Lemma cutover_filter A B_all :
  cutover A B_all =
    match last A with
    | Some h => filter (λ p, js_gt (pts p) (pts h) = true) B_all
    | None => B_all
    end.
Proof.
  unfold cutover. destruct A as [|a A] using rev_ind.
  - reflexivity.
  - rewrite last_snoc, length_app. simpl.
    replace (length A + 1 =? 0) with false by (symmetry; apply Nat.eqb_neq; lia).
    unfold ts_at. replace (length A + 1 - 1) with (length A) by lia.
    rewrite lookup_app_r by lia. by rewrite Nat.sub_diag.
Qed.

(** [rebuildFinalBuffer] sets the merged buffer to the merge the
    specification describes, and touches nothing else. *)
Lemma rebuildFinalBuffer_merged st :
  finalBuffer (rebuildFinalBuffer st) = merged (dummyBuffer st) (realtimeBuffer st) ∧
  dummyBuffer (rebuildFinalBuffer st) = dummyBuffer st ∧
  realtimeBuffer (rebuildFinalBuffer st) = realtimeBuffer st.
Proof.
  split_and!; [|done..].
  unfold rebuildFinalBuffer, merged, dedup. simpl.
  rewrite (combine_step_first_by_key _ [] ∅ []) by set_solver.
  rewrite cutover_filter. simpl.
  destruct (last (dummyBuffer st)) as [h|] eqn:Hlast; [done|].
  apply last_None in Hlast. by rewrite Hlast.
Qed.

Lemma rebuildFinalBuffer_merged_ok st : merged_ok (rebuildFinalBuffer st).
Proof.
  unfold merged_ok. by destruct (rebuildFinalBuffer_merged st) as (-> & -> & ->).
Qed.

(** ** The historical buffer *)

Lemma history_item_rejected st p : ¬ accepted p → history_item st p = st.
Proof.
  intros Hno. destruct p as [[[lat|] [lon|] ts]|]; try reflexivity.
  destruct Hno. by exists lat, lon, ts.
Qed.

Lemma addToDummy_known st p :
  hashPoint (normalizePoint p) ∈ dummyHashSet st → addToDummy st p = st.
Proof. intros Hin. unfold addToDummy. by rewrite decide_True. Qed.

Lemma addToDummy_fresh st p :
  hashPoint (normalizePoint p) ∉ dummyHashSet st →
  addToDummy st p =
    rebuildFinalBuffer
      (mkTrace (insertSorted (dummyBuffer st) (normalizePoint p)).1
               ({[hashPoint (normalizePoint p)]} ∪ dummyHashSet st)
               (realtimeBuffer st) (realtimeHashSet st) (finalBuffer st)).
Proof. intros Hout. unfold addToDummy. by rewrite decide_False. Qed.

Lemma addToDummy_fresh_merged_ok st p :
  hashPoint (normalizePoint p) ∉ dummyHashSet st → merged_ok (addToDummy st p).
Proof. intros Hout. rewrite addToDummy_fresh by done. apply rebuildFinalBuffer_merged_ok. Qed.

Lemma addToDummy_merged_ok st p : merged_ok st → merged_ok (addToDummy st p).
Proof.
  intros Hok.
  destruct (decide (hashPoint (normalizePoint p) ∈ dummyHashSet st)) as [Hin|Hout].
  - by rewrite addToDummy_known.
  - by apply addToDummy_fresh_merged_ok.
Qed.

Lemma addToDummy_live st p :
  realtimeBuffer (addToDummy st p) = realtimeBuffer st ∧
  realtimeHashSet (addToDummy st p) = realtimeHashSet st.
Proof.
  destruct (decide (hashPoint (normalizePoint p) ∈ dummyHashSet st)) as [Hin|Hout].
  - by rewrite addToDummy_known.
  - by rewrite addToDummy_fresh.
Qed.

(** the historical buffer and its index after [addToDummy] depend on the
    historical buffer and its index only *)
Lemma addToDummy_H st st' p :
  dummyBuffer st = dummyBuffer st' → dummyHashSet st = dummyHashSet st' →
  dummyBuffer (addToDummy st p) = dummyBuffer (addToDummy st' p) ∧
  dummyHashSet (addToDummy st p) = dummyHashSet (addToDummy st' p).
Proof.
  intros Hb Hs. unfold addToDummy. rewrite Hb, Hs.
  by destruct (decide (hashPoint (normalizePoint p) ∈ dummyHashSet st')).
Qed.

Lemma addToRealtime_merged_ok st p : merged_ok st → merged_ok (addToRealtime st p).
Proof.
  intros Hok. unfold addToRealtime.
  destruct (decide (hashPoint (normalizePoint p) ∈ realtimeHashSet st)) as [Hin|Hout].
  - exact Hok.
  - apply rebuildFinalBuffer_merged_ok.
Qed.

Lemma history_items_merged_ok points st :
  merged_ok st → merged_ok (foldl history_item st points).
Proof.
  revert st. induction points as [|p points IH]; intros st Hok; simpl; [done|].
  apply IH. destruct p as [[[lat|] [lon|] ts]|]; simpl; try done.
  by apply addToDummy_merged_ok.
Qed.

Lemma history_items_rejected points st :
  Forall (λ p, ¬ accepted p) points → foldl history_item st points = st.
Proof.
  revert st. induction points as [|p points IH]; intros st Hall; simpl; [done|].
  apply Forall_cons in Hall as [Hp Hall].
  rewrite history_item_rejected by done. by apply IH.
Qed.

(** once a first point of the batch is inserted, the merged buffer is
    recomputed *)
Lemma history_items_fresh points st :
  dummyHashSet st = ∅ → Exists accepted points →
  merged_ok (foldl history_item st points).
Proof.
  revert st. induction points as [|p points IH]; intros st Hempty Hex; simpl.
  - by apply Exists_nil in Hex.
  - destruct (decide (accepted p)) as [(lat & lon & ts & ->)|Hno].
    + apply history_items_merged_ok. simpl.
      apply addToDummy_fresh_merged_ok. rewrite Hempty. set_solver.
    + rewrite history_item_rejected by done.
      apply Exists_cons in Hex as [Hp|Hex]; [done|]. by apply IH.
Qed.

Lemma history_items_live points st :
  realtimeBuffer (foldl history_item st points) = realtimeBuffer st ∧
  realtimeHashSet (foldl history_item st points) = realtimeHashSet st.
Proof.
  revert st. induction points as [|p points IH]; intros st; simpl; [done|].
  destruct (IH (history_item st p)) as [-> ->].
  destruct p as [[[lat|] [lon|] ts]|]; simpl; try done.
  apply addToDummy_live.
Qed.

Lemma history_items_H points st st' :
  dummyBuffer st = dummyBuffer st' → dummyHashSet st = dummyHashSet st' →
  dummyBuffer (foldl history_item st points) =
    dummyBuffer (foldl history_item st' points).
Proof.
  revert st st'. induction points as [|p points IH]; intros st st' Hb Hs; simpl; [done|].
  destruct p as [[[lat|] [lon|] ts]|]; simpl; try by apply IH.
  destruct (addToDummy_H st st' (mkPoint lat lon ts) Hb Hs) as [Hb' Hs'].
  by apply IH.
Qed.

(** A batch answer rebuilds the historical buffer from the batch alone: what
    it held before has no influence on what it holds after. *)
Lemma onHistory_rebuilds_H st st' m points :
  action m = get_history → data m = Some points →
  dummyBuffer (onHistory st (Some m)) = dummyBuffer (onHistory st' (Some m)).
Proof.
  intros Hact Hdata. unfold onHistory. rewrite !decide_True by done. rewrite Hdata.
  by apply history_items_H.
Qed.

(** A batch answer with a point that passes the checks leaves the merged
    buffer equal to the merge of the new historical buffer and the live
    buffer. *)
Lemma onHistory_merged_ok st m points :
  action m = get_history → data m = Some points → Exists accepted points →
  merged_ok (onHistory st (Some m)) ∧
  realtimeBuffer (onHistory st (Some m)) = realtimeBuffer st.
Proof.
  intros Hact Hdata Hex. unfold onHistory. rewrite decide_True by done. rewrite Hdata.
  split.
  - by apply history_items_fresh.
  - by destruct (history_items_live points
      (mkTrace [] ∅ (realtimeBuffer st) (realtimeHashSet st) (finalBuffer st))) as [-> _].
Qed.

(** A batch answer without such a point empties the historical buffer and
    leaves the merged buffer as it was. *)
Lemma onHistory_nothing_accepted st m points :
  action m = get_history → data m = Some points → Forall (λ p, ¬ accepted p) points →
  onHistory st (Some m) =
    mkTrace [] ∅ (realtimeBuffer st) (realtimeHashSet st) (finalBuffer st).
Proof.
  intros Hact Hdata Hall. unfold onHistory. rewrite decide_True by done. rewrite Hdata.
  by apply history_items_rejected.
Qed.

Lemma history_item_checked st p :
  history_item st p = from_option (addToDummy st) st (checked p).
Proof. by destruct p as [[[lat|] [lon|] ts]|]. Qed.

Lemma insertSorted_Permutation buffer point :
  (insertSorted buffer point).1 ≡ₚ point :: buffer.
Proof.
  unfold insertSorted, splice0. cbn [fst].
  rewrite <- Permutation_middle. by rewrite take_drop.
Qed.

(** The historical buffer after the points of a batch are the points it
    held plus the normalized points of the batch whose key was not met
    before, first occurrence first. *)
Lemma history_items_Permutation points st (keys : list string) :
  (∀ h, h ∈ dummyHashSet st ↔ h ∈ keys) →
  dummyBuffer (foldl history_item st points) ≡ₚ
    dummyBuffer st ++ first_by_key keys (normalizePoint <$> omap checked points).
Proof.
  revert st keys. induction points as [|p points IH]; intros st keys Hkeys.
  - simpl. by rewrite app_nil_r.
  - cbn [foldl]. rewrite history_item_checked.
    destruct (checked p) as [q|] eqn:Hq; simpl; rewrite Hq; [|by apply IH].
    cbn [fmap list_fmap first_by_key].
    destruct (decide (hashPoint (normalizePoint q) ∈ keys)) as [Hin|Hout].
    + rewrite addToDummy_known by (by apply Hkeys). by apply IH.
    + rewrite (IH _ (hashPoint (normalizePoint q) :: keys)).
      * rewrite addToDummy_fresh by (by rewrite Hkeys).
        destruct (rebuildFinalBuffer_merged
          (mkTrace (insertSorted (dummyBuffer st) (normalizePoint q)).1
                   ({[hashPoint (normalizePoint q)]} ∪ dummyHashSet st)
                   (realtimeBuffer st) (realtimeHashSet st) (finalBuffer st)))
          as (_ & -> & _).
        cbn [dummyBuffer]. rewrite insertSorted_Permutation.
        by rewrite <- Permutation_middle.
      * intros h. rewrite addToDummy_fresh by (by rewrite Hkeys). simpl.
        rewrite elem_of_union, elem_of_singleton, elem_of_cons, Hkeys. done.
Qed.

(** After a batch answer the historical buffer holds exactly the normalized
    points of the batch that pass the checks, one per identity key (the
    first of the batch). *)
Lemma onHistory_holds_the_batch st m points :
  action m = get_history → data m = Some points →
  dummyBuffer (onHistory st (Some m)) ≡ₚ dedup (normalizePoint <$> omap checked points).
Proof.
  intros Hact Hdata. unfold onHistory. rewrite decide_True by done. rewrite Hdata.
  rewrite (history_items_Permutation points _ []); [done|].
  simpl. intros h. set_solver.
Qed.

Lemma addToDummy_ascending st p :
  ascending (dummyBuffer st) → Forall dated (dummyBuffer st) →
  dated (normalizePoint p) →
  ascending (dummyBuffer (addToDummy st p)) ∧
  Forall dated (dummyBuffer (addToDummy st p)).
Proof.
  intros Hs Hd Hp.
  destruct (decide (hashPoint (normalizePoint p) ∈ dummyHashSet st)) as [Hin|Hout].
  - by rewrite addToDummy_known.
  - rewrite addToDummy_fresh by done. unfold rebuildFinalBuffer. cbn [dummyBuffer]. split.
    + by apply insertSorted_ascending.
    + unfold insertSorted, splice0. cbn [fst].
      apply Forall_app. split; [by apply Forall_take|].
      apply Forall_cons. split; [exact Hp|by apply Forall_drop].
Qed.

Lemma history_items_ascending points st :
  Forall (λ q, dated (normalizePoint q)) (omap checked points) →
  ascending (dummyBuffer st) ∧ Forall dated (dummyBuffer st) →
  ascending (dummyBuffer (foldl history_item st points)) ∧
  Forall dated (dummyBuffer (foldl history_item st points)).
Proof.
  revert st. induction points as [|p points IH]; intros st Hall Hinit; [done|].
  cbn [foldl]. rewrite history_item_checked.
  destruct (checked p) as [q|] eqn:Hq; simpl in Hall; rewrite Hq in Hall; simpl.
  - apply Forall_cons in Hall as [Hq' Hall]. apply IH; [exact Hall|].
    destruct Hinit. by apply addToDummy_ascending.
  - by apply IH.
Qed.

(** a batch of points whose timestamps are missing or valid leaves the
    historical buffer sorted *)
Lemma onHistory_ascending st m points :
  action m = get_history → data m = Some points →
  Forall (λ q, dated (normalizePoint q)) (omap checked points) →
  ascending (dummyBuffer (onHistory st (Some m))).
Proof.
  intros Hact Hdata Hall. unfold onHistory. rewrite decide_True by done. rewrite Hdata.
  apply history_items_ascending; [exact Hall|]. split; constructor.
Qed.

(** ** Reachable states *)

Lemma trace_step_merged_ok st ev :
  effective ev → merged_ok st → merged_ok (trace_step st ev).
Proof.
  intros Heff Hok. destruct ev as [data|[m|]|]; cbn [trace_step].
  - destruct data as [[[lat|] [lon|] ts]|]; simpl; try done.
    by apply addToRealtime_merged_ok.
  - destruct (decide (action m = get_history)) as [Hact|Hact].
    + destruct (data m) as [points|] eqn:Hdata.
      * by destruct (onHistory_merged_ok st m points Hact Hdata
                       (Heff Hact points Hdata)) as [Hm _].
      * unfold onHistory. rewrite decide_True by done. by rewrite Hdata.
    + unfold onHistory. by rewrite decide_False.
  - exact Hok.
  - reflexivity.
Qed.

(** In every state reached through events none of which is a batch answer
    without accepted points, the merged buffer is the merge of the historical
    and the live buffer. *)
Lemma trace_run_merged_ok evs : Forall effective evs → merged_ok (trace_run evs).
Proof.
  unfold trace_run. induction evs as [|ev evs IH] using rev_ind; intros Hall.
  - reflexivity.
  - apply Forall_app in Hall as [Hevs Hev]. rewrite Forall_singleton in Hev.
    rewrite foldl_snoc. apply trace_step_merged_ok; [exact Hev|by apply IH].
Qed.

(** ** Order of the merged sequence *)

Lemma sublist_ascending l k : sublist l k → ascending k → ascending l.
Proof.
  unfold ascending. induction 1 as [|x l k Hsub IH|x l k Hsub IH]; intros Hs.
  - constructor.
  - apply StronglySorted_cons in Hs as [Hx Hs].
    apply StronglySorted_cons. split; [|by apply IH].
    apply Forall_forall. intros y Hy.
    eapply Forall_forall in Hx; [exact Hx|]. by eapply elem_of_sublist.
  - apply StronglySorted_cons in Hs as [_ Hs]. by apply IH.
Qed.

(** the merge of a sorted historical buffer of dated points and a sorted
    live buffer is sorted *)
Lemma merged_ascending H_ L :
  ascending H_ → Forall dated H_ → ascending L → ascending (merged H_ L).
Proof.
  intros HsH HdH HsL. unfold merged.
  destruct (last H_) as [h|] eqn:Hlast.
  - eapply sublist_ascending; [apply first_by_key_sublist|].
    apply StronglySorted_app_2.
    + intros x y Hx [Hgt Hy]%list_elem_of_filter.
      destruct (js_lt_true_lt _ _ Hgt) as (a & b & Ha & Hb & Hab).
      unfold not_after. rewrite Hb.
      assert (Hdx : dated x) by (by eapply Forall_forall in HdH).
      unfold dated in Hdx. destruct (pts x) as [|c] eqn:Hc; [done|].
      simpl. apply Z.ltb_ge.
      apply last_Some in Hlast as [H' ->].
      apply elem_of_app in Hx as [Hx|Hx%list_elem_of_singleton].
      * assert (Hxh : not_after x h).
        { eapply StronglySorted_app_1_elem_of; [exact HsH|exact Hx|].
          apply list_elem_of_here. }
        unfold not_after in Hxh. rewrite Ha, Hc in Hxh.
        apply js_lt_false_le in Hxh. lia.
      * subst x. rewrite Ha in Hc. injection Hc as <-. lia.
    + exact HsH.
    + unfold ascending in HsL. clear -HsL.
      induction HsL as [|y L Hs IH Hy]; [constructor|].
      rewrite filter_cons. destruct (decide _); [|exact IH].
      apply StronglySorted_cons. split; [|exact IH].
      apply Forall_forall. intros z [_ Hz]%list_elem_of_filter.
      by eapply Forall_forall in Hy.
  - eapply sublist_ascending; [apply first_by_key_sublist|exact HsL].
Qed.

Lemma addToRealtime_dummy st p :
  dummyBuffer (addToRealtime st p) = dummyBuffer st.
Proof.
  destruct (decide (hashPoint (normalizePoint p) ∈ realtimeHashSet st)) as [Hin|Hout].
  - by rewrite addToRealtime_known.
  - by destruct (addToRealtime_fresh st p Hout) as [_ ->].
Qed.

Lemma trace_step_buffers_ascending st ev :
  dated_event ev → buffers_ascending st → buffers_ascending (trace_step st ev).
Proof.
  intros Hev (HsH & HdH & HsL & HdL). destruct ev as [data|[m|]|]; cbn [trace_step].
  - destruct (checked data) as [q|] eqn:Hq.
    + replace (onGPS_next st data) with (addToRealtime st q)
        by (by destruct data as [[[lat|] [lon|] ts]|]; simplify_eq/=).
      destruct (addToRealtime_ascending st q HsL HdL (Hev q Hq)) as [Hs' Hd'].
      unfold buffers_ascending. by rewrite addToRealtime_dummy.
    + replace (onGPS_next st data) with st
        by (by destruct data as [[[lat|] [lon|] ts]|]).
      done.
  - unfold onHistory. destruct (decide (action m = get_history)) as [Hact|Hact]; [|done].
    destruct (data m) as [points|] eqn:Hdata; [|done].
    set (st0 := mkTrace [] ∅ (realtimeBuffer st) (realtimeHashSet st) (finalBuffer st)).
    destruct (history_items_ascending points st0 (Hev points Hdata)) as [Hs' Hd'].
    { split; constructor. }
    destruct (history_items_live points st0) as [Hlive _].
    unfold buffers_ascending. rewrite Hlive. done.
  - done.
  - repeat split; constructor.
Qed.

(** X10.  In every state reached through events that carry dated points
    only and none of which is a batch answer without accepted points,
    [getTrace] is the merge of the two buffers and is sorted ascending. *)
Lemma trace_run_merged_ascending evs :
  Forall effective evs → Forall dated_event evs →
  getTrace (trace_run evs) =
    merged (dummyBuffer (trace_run evs)) (realtimeBuffer (trace_run evs)) ∧
  ascending (getTrace (trace_run evs)).
Proof.
  intros Heff Hdated.
  pose proof (trace_run_merged_ok evs Heff) as Hok. split; [exact Hok|].
  unfold getTrace. rewrite Hok.
  assert (Hb : buffers_ascending (trace_run evs)).
  { clear Heff Hok. unfold trace_run.
    induction evs as [|ev evs IH] using rev_ind.
    - repeat split; constructor.
    - apply Forall_app in Hdated as [Hevs Hev]. rewrite Forall_singleton in Hev.
      rewrite foldl_snoc. apply trace_step_buffers_ascending; [exact Hev|by apply IH]. }
  destruct Hb as (HsH & HdH & HsL & _). by apply merged_ascending.
Qed.

(** ** Points without a timestamp *)

(** when no element of the buffer is strictly earlier than [ts], the loop
    ends at index 0 *)
Lemma insertSorted_loop_front fuel buffer ts right :
  (∀ q, q ∈ buffer → js_lt (pts q) ts = false) →
  insertSorted_loop fuel buffer ts 0 right = 0.
Proof.
  intros Hall. revert right. induction fuel as [|fuel IH]; intros right; [done|].
  cbn [insertSorted_loop]. destruct (0 <? right); [|done].
  replace (js_lt (ts_at buffer ((0 + right) / 2)) ts) with false; [apply IH|].
  unfold ts_at. destruct (buffer !! ((0 + right) / 2)) as [q|] eqn:Hq; [|done].
  symmetry. apply Hall. by eapply list_elem_of_lookup_2.
Qed.

Lemma pts_missing p :
  Timestamp p = None ∨ Timestamp p = Some ""%string → pts (normalizePoint p) = Num 0.
Proof. unfold pts, normalizePoint. simpl. by intros [-> | ->]. Qed.

(** a timestamp the date parser rejects parses to [NaN] *)
Lemma pts_rejected p iso :
  Timestamp p = Some iso → iso ≠ ""%string → Date_new iso = NaN →
  pts (normalizePoint p) = NaN.
Proof.
  unfold pts, normalizePoint. simpl. intros -> Hne Hnan.
  destruct iso as [|c iso]; [done|].
  unfold parseTimestamp, parseIsoToUtc. by rewrite Hnan.
Qed.

(** the live points admitted behind a historical buffer whose last point is
    [h] are strictly later than [h] *)
Lemma cutover_later A B_all h q :
  last A = Some h → q ∈ cutover A B_all → js_lt (pts h) (pts q) = true.
Proof.
  intros Hlast. rewrite cutover_filter, Hlast.
  by intros [Hgt _]%list_elem_of_filter.
Qed.

Lemma finalBuffer_origin st q :
  q ∈ finalBuffer (rebuildFinalBuffer st) →
  q ∈ dummyBuffer st ∨ q ∈ cutover (dummyBuffer st) (realtimeBuffer st).
Proof.
  unfold rebuildFinalBuffer. simpl.
  rewrite (combine_step_first_by_key _ [] ∅ []) by set_solver. simpl.
  intros Hq. apply elem_of_app.
  eapply elem_of_sublist; [exact Hq|apply first_by_key_sublist].
Qed.

(** C9, as the code has it.  A live point whose timestamp is missing (null
    or empty) parses to 0, the epoch.  If its key is new and no point of the
    live buffer is dated before the epoch, [addToRealtime] puts it at the
    front of the live buffer.  Behind a historical buffer whose last point is
    not dated before the epoch it is not among the live points admitted, and
    it is in the merged buffer only if the historical buffer holds it. *)
Theorem missing_timestamp_sorts_at_epoch st p :
  Timestamp p = None ∨ Timestamp p = Some ""%string →
  pts (normalizePoint p) = Num 0 ∧
  (hashPoint (normalizePoint p) ∉ realtimeHashSet st →
   Forall (λ q, js_lt (pts q) (Num 0) = false) (realtimeBuffer st) →
   realtimeBuffer (addToRealtime st p) = normalizePoint p :: realtimeBuffer st) ∧
  (∀ st' h,
     last (dummyBuffer st') = Some h → js_lt (pts h) (Num 0) = false →
     (normalizePoint p ∉ cutover (dummyBuffer st') (realtimeBuffer st')) ∧
     (normalizePoint p ∈ getTrace (rebuildFinalBuffer st') →
      normalizePoint p ∈ dummyBuffer st')).
Proof.
  intros Hmissing. pose proof (pts_missing p Hmissing) as Hzero. split_and!.
  - exact Hzero.
  - intros Hfresh Hall. destruct (addToRealtime_fresh st p Hfresh) as [-> _].
    unfold insertSorted, splice0. cbn [fst].
    fold (pts (normalizePoint p)). rewrite Hzero.
    rewrite insertSorted_loop_front.
    + by rewrite take_0, drop_0.
    + intros q Hq. by eapply Forall_forall in Hall.
  - intros st' h Hlast Hh.
    assert (Hout : normalizePoint p ∉ cutover (dummyBuffer st') (realtimeBuffer st')).
    { intros Hin. apply (cutover_later _ _ h) in Hin; [|exact Hlast].
      rewrite Hzero in Hin. congruence. }
    split; [exact Hout|].
    unfold getTrace. intros [Hin|Hin]%finalBuffer_origin; [exact Hin|done].
Qed.

(** X11.  A live point whose timestamp the date parser rejects parses to
    [NaN]; it goes to the front of the live buffer and is never admitted
    behind a historical buffer. *)
Lemma unparseable_timestamp_live_point st p :
  pts (normalizePoint p) = NaN →
  (hashPoint (normalizePoint p) ∉ realtimeHashSet st →
   realtimeBuffer (addToRealtime st p) = normalizePoint p :: realtimeBuffer st) ∧
  (∀ A B_all, A ≠ [] → normalizePoint p ∉ cutover A B_all).
Proof.
  intros Hnan. split.
  - intros Hfresh. destruct (addToRealtime_fresh st p Hfresh) as [-> _].
    unfold insertSorted, splice0. cbn [fst].
    fold (pts (normalizePoint p)). rewrite Hnan.
    rewrite insertSorted_loop_front.
    + by rewrite take_0, drop_0.
    + intros q _. by destruct (pts q).
  - intros A B_all HA Hin.
    destruct (last A) as [h|] eqn:Hlast; [|by apply last_None in Hlast].
    apply (cutover_later _ _ h) in Hin; [|exact Hlast].
    rewrite Hnan in Hin. by destruct (pts h).
Qed.

End TraceProperties.

(** * Properties of the channel connection *)

Section ChannelProperties.
Context {Incoming Outgoing : Type}.
Implicit Types (st : WebSocketBaseService Incoming Outgoing).
Implicit Types (ev : ChannelEvent Incoming Outgoing).

Local Open Scope Z_scope.

(** ** Backoff *)

Lemma retry_delay_capped n : retry_delay n ≤ maxReconnectInterval.
Proof. unfold retry_delay. lia. Qed.

Lemma retry_delay_large n : (4 ≤ n)%nat → retry_delay n = 60000.
Proof.
  intros Hn. unfold retry_delay, reconnectInterval, maxReconnectInterval.
  assert (2 ^ 4 ≤ 2 ^ Z.of_nat n) by (apply Z.pow_le_mono_r; lia).
  lia.
Qed.

Lemma retry_delay_small n : (n < 4)%nat → retry_delay n = 5000 * 2 ^ Z.of_nat n.
Proof.
  intros Hn. assert (Hcases : n = 0%nat ∨ n = 1%nat ∨ n = 2%nat ∨ n = 3%nat) by lia.
  by destruct Hcases as [->|[->|[->| ->]]].
Qed.

Lemma lookup_set_pipeline st i p q :
  pipelines st !! i = Some q → pipelines (set_pipeline i p st) !! i = Some p.
Proof.
  intros Hq. unfold set_pipeline. simpl.
  apply list_lookup_insert_eq. by eapply lookup_lt_Some.
Qed.

(** Arming the timer.  When the transport of a subscribed pipeline fails and
    retries are left, the wait before the retry is [min(5000 * 2^n, 60000)],
    where [n = 1, 2, ...] numbers the retries of this pipeline since the
    [connect] call that built it.  The successive waits are 10000, 20000,
    40000, 60000, 60000, ...: never above 60000, and 60000 from the fourth
    retry on.  The connection status does not change, and a received message
    leaves the counter as it is. *)
Lemma retry_backoff st i a k :
  pipelines st !! i = Some (mkPipeline a k Subscribed) → (k < maxRetries)%nat →
  pipelines (transport_error i st) !! i =
    Some (mkPipeline a (S k) (Waiting (retry_delay (S k)))) ∧
  retry_delay (S k) = Z.min (5000 * 2 ^ Z.of_nat (S k)) 60000 ∧
  retry_delay (S k) ≤ 60000 ∧
  ((4 ≤ S k)%nat → retry_delay (S k) = 60000) ∧
  retry_delay <$> [1; 2; 3; 4; 5]%nat = [10000; 20000; 40000; 60000; 60000] ∧
  connectionStatus (transport_error i st) = connectionStatus st ∧
  (∀ msg, pipelines (transport_message i msg st) = pipelines st).
Proof.
  intros Hp Hk. split_and!.
  - unfold transport_error. rewrite Hp.
    apply Nat.ltb_lt in Hk. rewrite Hk.
    by apply (lookup_set_pipeline _ _ _ (mkPipeline a k Subscribed)).
  - reflexivity.
  - apply retry_delay_capped.
  - apply retry_delay_large.
  - reflexivity.
  - unfold transport_error. rewrite Hp.
    apply Nat.ltb_lt in Hk. by rewrite Hk.
  - intros msg. unfold transport_message. by rewrite Hp.
Qed.

(** a pipeline starts with its retry counter at zero *)
Lemma connect_fresh_pipeline st a :
  pipelines (connect a st) = pipelines st ++ [mkPipeline a 0 Subscribed] ∧
  socket (connect a st) = Some (length (pipelines st)) ∧
  connectionStatus (connect a st) = connecting ∧
  isClosed (connect a st) = false.
Proof. done. Qed.

(** ** The last-value observable *)

(** an error of a transport delivers no message *)
Lemma transport_error_messages st i :
  latestMessage (transport_error i st) = latestMessage st ∧
  messages (transport_error i st) = messages st.
Proof.
  unfold transport_error. destruct (pipelines st !! i) as [[a k [|d|]]|]; try done.
  destruct (k <? maxRetries)%nat; [done|].
  unfold finalize_callback. simpl.
  destruct (negb (isClosed st) && (a <? maxRetries)%nat); [done|].
  by destruct (isClosed st).
Qed.

(** [latestMessage$] holds the last emission of [messages$] *)
Lemma latestMessage_last evs :
  latestMessage (@channel_run Incoming Outgoing evs) =
    last (messages (channel_run evs)).
Proof.
  unfold channel_run.
  induction evs as [|ev evs IH] using rev_ind; [done|].
  rewrite foldl_snoc.
  set (st := foldl channel_step WebSocketBaseService_new evs) in *.
  destruct ev as [| |msg fails|i|i|i msg|i]; simpl; try exact IH.
  - unfold sendMessage. destruct (socket st) as [s|]; [|exact IH].
    destruct fails; [|exact IH]. cbn [fst].
    by destruct (transport_error_messages (socket_next s msg st) s) as [-> ->].
  - by destruct (transport_error_messages st i) as [-> ->].
  - unfold transport_complete. destruct (pipelines st !! i) as [[a k [|d|]]|]; try exact IH.
    unfold finalize_callback. simpl.
    destruct (negb (isClosed st) && (a <? maxRetries)%nat); [exact IH|].
    by destruct (isClosed st).
  - unfold transport_message. destruct (pipelines st !! i) as [[a k [|d|]]|]; try exact IH.
    simpl. by rewrite last_snoc.
  - unfold timer_fires. by destruct (pipelines st !! i) as [[a k [|d|]]|].
Qed.

(** C10.  As long as [messages$] has emitted nothing, a subscriber of the
    last-value observable, under any of its names, receives [null] at the
    moment it subscribes. *)
Theorem subscriber_gets_null_before_first_message
    (evs : list (ChannelEvent Incoming Outgoing)) :
  messages (channel_run evs) = [] →
  onMessage (channel_run evs) = None ∧
  onGPS (channel_run evs) = None ∧
  onResponse (channel_run evs) = None ∧
  onLog (channel_run evs) = None.
Proof.
  intros Hnone. unfold onGPS, onResponse, onLog, onMessage.
  rewrite latestMessage_last, Hnone. done.
Qed.

(** once a message is delivered, the subscriber receives the last one *)
Lemma subscriber_gets_last_message
    (evs : list (ChannelEvent Incoming Outgoing)) msg :
  last (messages (channel_run evs)) = Some msg → onMessage (channel_run evs) = Some msg.
Proof. intros Hlast. unfold onMessage. by rewrite latestMessage_last. Qed.

(** ** Intentional close *)

Lemma length_set_pipeline st i p :
  length (pipelines (set_pipeline i p st)) = length (pipelines st).
Proof. unfold set_pipeline. simpl. apply length_insert. Qed.

(** with [isClosed] set, the [finalize] callback only writes to the console *)
Lemma finalize_callback_closed st a :
  isClosed st = true →
  finalize_callback a st = console_write Log_closed_intentionally (set_socket None st).
Proof. intros Hc. unfold finalize_callback. simpl. by rewrite Hc. Qed.

Lemma closed_step st ev :
  isClosed st = true → socket st = None → ev ≠ Initialize →
  closed_step_ok st (channel_step st ev).
Proof.
  intros Hc Hs Hev. unfold closed_step_ok.
  destruct ev as [| |msg fails|i|i|i msg|i]; simpl; [done|..].
  - split_and!; [done..|]. exists [disconnected]. split_and!; [done| |right].
    + by intros [?|?%elem_of_nil]%elem_of_cons.
    + apply list_elem_of_here.
  - unfold sendMessage. rewrite Hs. simpl. split_and!; [done..|].
    exists []. rewrite app_nil_r. split_and!; [done|apply not_elem_of_nil|by left].
  - unfold transport_error.
    destruct (pipelines st !! i) as [[a k [|d|]]|];
      try (split_and!; [done..|]; exists []; rewrite app_nil_r;
           split_and!; [done|apply not_elem_of_nil|by left]).
    destruct (k <? maxRetries)%nat.
    + split_and!; [done|done|apply length_insert|].
      exists []. simpl. rewrite app_nil_r.
      split_and!; [done|apply not_elem_of_nil|by left].
    + rewrite finalize_callback_closed by done. simpl.
      split_and!; [done|done|apply length_insert|].
      exists [disconnected]. split_and!; [done| |right; apply list_elem_of_here].
      by intros [?|?%elem_of_nil]%elem_of_cons.
  - unfold transport_complete.
    destruct (pipelines st !! i) as [[a k [|d|]]|];
      try (split_and!; [done..|]; exists []; rewrite app_nil_r;
           split_and!; [done|apply not_elem_of_nil|by left]).
    rewrite finalize_callback_closed by done. simpl.
    split_and!; [done|done|apply length_insert|].
    exists []. rewrite app_nil_r. split_and!; [done|apply not_elem_of_nil|by left].
  - unfold transport_message.
    destruct (pipelines st !! i) as [[a k [|d|]]|];
      try (split_and!; [done..|]; exists []; rewrite app_nil_r;
           split_and!; [done|apply not_elem_of_nil|by left]).
    simpl. split_and!; [done..|].
    exists [connected]. split_and!; [done| |right; apply list_elem_of_here].
    by intros [?|?%elem_of_nil]%elem_of_cons.
  - unfold timer_fires.
    destruct (pipelines st !! i) as [[a k [|d|]]|];
      try (split_and!; [done..|]; exists []; rewrite app_nil_r;
           split_and!; [done|apply not_elem_of_nil|by left]).
    split_and!; [done|done|apply length_insert|].
    exists []. simpl. rewrite app_nil_r.
    split_and!; [done|apply not_elem_of_nil|by left].
Qed.

(** X17.  After [close()], as long as [initialize()] is not called,
    whatever the transport and the timers report: [connect] is not called
    again (no pipeline is built, [isClosed] stays set, no socket handle is
    held) and the status [connecting] is never emitted. *)
Lemma close_suppresses_connect st evs :
  Forall (λ ev, ev ≠ Initialize) evs →
  connectionStatus (close st) = disconnected ∧
  isClosed (foldl channel_step (close st) evs) = true ∧
  socket (foldl channel_step (close st) evs) = None ∧
  length (pipelines (foldl channel_step (close st) evs)) = length (pipelines st) ∧
  connectionStatus (foldl channel_step (close st) evs) ≠ connecting ∧
  ∃ more, statusEmitted (foldl channel_step (close st) evs) =
            statusEmitted st ++ disconnected :: more ∧
          connecting ∉ more.
Proof.
  intros Hall. split; [done|].
  induction evs as [|ev evs IH] using rev_ind.
  - simpl. split_and!; [done..|]. exists []. split; [done|apply not_elem_of_nil].
  - apply Forall_app in Hall as [Hevs Hev]. rewrite Forall_singleton in Hev.
    destruct (IH Hevs) as (Hc & Hs & Hlen & Hstatus & more & Hemit & Hmore).
    rewrite foldl_snoc.
    destruct (closed_step _ ev Hc Hs Hev) as (Hc' & Hs' & Hlen' & more' & Hemit' & Hmore' & Hst').
    split_and!; [done|done|congruence| |].
    + destruct Hst' as [Heq|Hin]; [congruence|].
      intros Heq. rewrite Heq in Hin. done.
    + exists (more ++ more'). split.
      * rewrite Hemit', Hemit. by rewrite <- app_assoc.
      * intros [?|?]%elem_of_app; done.
Qed.

(** ** Retry exhaustion *)

(** once every pipeline has ended, no report of the transport or of a timer
    changes the service *)
Lemma settled_is_final st i msg :
  Forall (λ p, phase p = Ended) (pipelines st) →
  transport_error i st = st ∧ transport_complete i st = st ∧
  transport_message i msg st = st ∧ timer_fires i st = st.
Proof.
  intros Hall.
  unfold transport_error, transport_complete, transport_message, timer_fires.
  destruct (pipelines st !! i) as [[a k ph]|] eqn:Hp; [|done].
  eapply Forall_lookup_1 in Hall; [|exact Hp]. simpl in Hall. by rewrite Hall.
Qed.

End ChannelProperties.

(** * Further properties of the point reconciliation buffer *)

Lemma filter_ext_elem {A} (P1 P2 : A → Prop)
    `{!∀ x, Decision (P1 x), !∀ x, Decision (P2 x)} (l : list A) :
  (∀ x, x ∈ l → (P1 x ↔ P2 x)) → filter P1 l = filter P2 l.
Proof.
  induction l as [|a l IH]; intros Hext; [done|].
  assert (Hl : filter P1 l = filter P2 l).
  { apply IH. intros x Hx. apply Hext. by apply list_elem_of_further. }
  destruct (decide (P1 a)) as [Ha|Ha].
  - rewrite !filter_cons_True; [by rewrite Hl| |done].
    apply Hext; [apply list_elem_of_here|done].
  - rewrite !filter_cons_False; [done| |done].
    intros Ha2. apply Ha, Hext; [apply list_elem_of_here|done].
Qed.

Section TraceCoverage.
Context `{JSNumber} `{JSDate}.

Lemma insertSorted_index_le buffer point :
  (insertSorted buffer point).2 ≤ length buffer.
Proof.
  unfold insertSorted. cbn [snd].
  pose proof (insertSorted_loop_runs (length buffer) buffer
                (parseTimestamp (Timestamp point)) 0 (length buffer)) as Hrun.
  apply loop_runs_bounds in Hrun; lia.
Qed.

(** X1.  [insertSorted] inserts the point, once, at the index it returns:
    the index lies inside the buffer or at its end, the elements before and
    behind it keep their places, and the buffer is one element longer. *)
Theorem insertSorted_inserts buffer point :
  (insertSorted buffer point).2 ≤ length buffer ∧
  (insertSorted buffer point).1 !! (insertSorted buffer point).2 = Some point ∧
  take (insertSorted buffer point).2 (insertSorted buffer point).1 =
    take (insertSorted buffer point).2 buffer ∧
  drop (S (insertSorted buffer point).2) (insertSorted buffer point).1 =
    drop (insertSorted buffer point).2 buffer ∧
  length (insertSorted buffer point).1 = S (length buffer).
Proof.
  pose proof (insertSorted_index_le buffer point) as Hle.
  unfold insertSorted, splice0 in *. cbn [fst snd] in *.
  set (r := insertSorted_loop _ _ _ _ _) in *. clearbody r.
  assert (Hlen : length (take r buffer) = r) by (rewrite length_take; lia).
  split_and!.
  - exact Hle.
  - by apply list_lookup_middle.
  - by rewrite take_app_length'.
  - rewrite (cons_middle point), app_assoc.
    rewrite drop_app_length'; [done|]. rewrite length_app. simpl. lia.
  - rewrite length_app. simpl. rewrite Hlen, length_drop. lia.
Qed.

(** X2.  On a sorted buffer of points whose timestamps are missing or valid,
    [insertSorted] finds the lower bound: every point before the index
    returned is strictly earlier than the new point, no point from that
    index on is, and the buffer stays sorted.  A point thus goes before the
    points that share its timestamp. *)
Theorem insertSorted_lower_bound buffer point :
  ascending buffer → Forall dated buffer →
  ascending (insertSorted buffer point).1 ∧
  (∀ j q, j < (insertSorted buffer point).2 → buffer !! j = Some q →
          js_lt (pts q) (pts point) = true) ∧
  (∀ j q, (insertSorted buffer point).2 ≤ j → buffer !! j = Some q →
          js_lt (pts q) (pts point) = false).
Proof.
  intros Hs Hd. split; [by apply insertSorted_ascending|].
  unfold insertSorted. cbn [snd]. fold (pts point).
  eapply loop_runs_lower_bound; [|exact Hs|exact Hd| |].
  - apply insertSorted_loop_runs; lia.
  - intros j q Hj. lia.
  - intros j q Hj Hq. apply lookup_lt_Some in Hq. lia.
Qed.

(** ** Identity indexes *)

Lemma index_insert (keys : gset string) buffer point :
  (∀ h, h ∈ keys ↔ h ∈ hashPoint <$> buffer) →
  NoDup (hashPoint <$> buffer) →
  hashPoint point ∉ keys →
  (∀ h, h ∈ {[hashPoint point]} ∪ keys ↔
        h ∈ hashPoint <$> (insertSorted buffer point).1) ∧
  NoDup (hashPoint <$> (insertSorted buffer point).1).
Proof.
  intros Hkeys Hnd Hfresh. split.
  - intros h. rewrite insertSorted_Permutation, fmap_cons.
    rewrite elem_of_union, elem_of_singleton, elem_of_cons, Hkeys. done.
  - rewrite insertSorted_Permutation, fmap_cons.
    apply NoDup_cons. split; [by rewrite <- Hkeys|exact Hnd].
Qed.

Lemma merged_NoDup H_ L : NoDup (hashPoint <$> merged H_ L).
Proof. unfold merged, dedup. destruct (last H_); apply first_by_key_NoDup. Qed.

Lemma rebuildFinalBuffer_index_ok st :
  (∀ h, h ∈ dummyHashSet st ↔ h ∈ hashPoint <$> dummyBuffer st) →
  NoDup (hashPoint <$> dummyBuffer st) →
  (∀ h, h ∈ realtimeHashSet st ↔ h ∈ hashPoint <$> realtimeBuffer st) →
  NoDup (hashPoint <$> realtimeBuffer st) →
  index_ok (rebuildFinalBuffer st).
Proof.
  intros ? ? ? ?. unfold index_ok.
  destruct (rebuildFinalBuffer_merged st) as (-> & _ & _).
  split_and!; try done. apply merged_NoDup.
Qed.

Lemma addToRealtime_index_ok st p : index_ok st → index_ok (addToRealtime st p).
Proof.
  intros (HdS & HdN & HrS & HrN & HfN). unfold addToRealtime.
  destruct (decide (hashPoint (normalizePoint p) ∈ realtimeHashSet st)) as [Hin|Hout].
  - done.
  - destruct (index_insert _ _ _ HrS HrN Hout) as [HS' HN'].
    by apply rebuildFinalBuffer_index_ok.
Qed.

Lemma addToDummy_index_ok st p : index_ok st → index_ok (addToDummy st p).
Proof.
  intros (HdS & HdN & HrS & HrN & HfN). unfold addToDummy.
  destruct (decide (hashPoint (normalizePoint p) ∈ dummyHashSet st)) as [Hin|Hout].
  - done.
  - destruct (index_insert _ _ _ HdS HdN Hout) as [HS' HN'].
    by apply rebuildFinalBuffer_index_ok.
Qed.

Lemma history_items_index_ok points st :
  index_ok st → index_ok (foldl history_item st points).
Proof.
  revert st. induction points as [|p points IH]; intros st Hok; [done|].
  cbn [foldl]. apply IH. rewrite history_item_checked.
  destruct (checked p); simpl; [by apply addToDummy_index_ok|done].
Qed.

Lemma empty_index (h : string) :
  h ∈ (∅ : gset string) ↔ h ∈ hashPoint <$> ([] : list TracePoint).
Proof. split; [by intros ?%elem_of_empty|by intros ?%elem_of_nil]. Qed.

Lemma TraceService_new_index_ok : index_ok TraceService_new.
Proof. split_and!; try apply empty_index; constructor. Qed.

Lemma trace_step_index_ok st ev : index_ok st → index_ok (trace_step st ev).
Proof.
  intros Hok. destruct ev as [data|[m|]|]; cbn [trace_step].
  - destruct data as [[[lat|] [lon|] ts]|]; simpl; try done.
    by apply addToRealtime_index_ok.
  - unfold onHistory. destruct (decide (action m = get_history)); [|done].
    destruct (data m) as [points|]; [|done].
    apply history_items_index_ok.
    destruct Hok as (_ & _ & HrS & HrN & HfN).
    split_and!; [apply empty_index|constructor|done..].
  - done.
  - apply TraceService_new_index_ok.
Qed.

Lemma trace_run_keys_unique_aux (evs : list TraceEvent) : index_ok (trace_run evs).
Proof.
  unfold trace_run. induction evs as [|ev evs IH] using rev_ind.
  - apply TraceService_new_index_ok.
  - rewrite foldl_snoc. by apply trace_step_index_ok.
Qed.

(** X3.  In every state the service can reach, each identity index holds
    exactly the keys of its buffer, and none of the three buffers holds two
    points with the same key. *)
Theorem trace_run_keys_unique (evs : list TraceEvent) :
  (∀ h, h ∈ dummyHashSet (trace_run evs) ↔
        h ∈ hashPoint <$> dummyBuffer (trace_run evs)) ∧
  (∀ h, h ∈ realtimeHashSet (trace_run evs) ↔
        h ∈ hashPoint <$> realtimeBuffer (trace_run evs)) ∧
  NoDup (hashPoint <$> dummyBuffer (trace_run evs)) ∧
  NoDup (hashPoint <$> realtimeBuffer (trace_run evs)) ∧
  NoDup (hashPoint <$> getTrace (trace_run evs)).
Proof.
  destruct (trace_run_keys_unique_aux evs) as (? & ? & ? & ? & ?). done.
Qed.

(** ** The shape of the merged sequence *)

Lemma first_by_key_ext seen seen' l :
  (∀ h, h ∈ seen ↔ h ∈ seen') → first_by_key seen l = first_by_key seen' l.
Proof.
  revert seen seen'. induction l as [|p l IH]; intros seen seen' Hext; [done|].
  simpl. destruct (decide (hashPoint p ∈ seen)) as [Hin|Hout].
  - rewrite decide_True by (by apply Hext). by apply IH.
  - rewrite decide_False by (by rewrite <- Hext). f_equal. apply IH.
    intros h. rewrite !elem_of_cons, Hext. done.
Qed.

(** on a list without repeated keys, keeping first occurrences is dropping
    the keys already seen *)
Lemma first_by_key_filter seen l :
  NoDup (hashPoint <$> l) →
  first_by_key seen l = filter (λ p, hashPoint p ∉ seen) l.
Proof.
  revert seen. induction l as [|p l IH]; intros seen Hnd; [done|].
  rewrite fmap_cons in Hnd. apply NoDup_cons in Hnd as [Hp Hnd]. simpl.
  destruct (decide (hashPoint p ∈ seen)) as [Hin|Hout].
  - rewrite filter_cons_False by (by intros ?). by apply IH.
  - rewrite filter_cons_True by done. f_equal. rewrite IH by done.
    apply filter_ext_elem. intros q Hq.
    rewrite elem_of_cons. split; [tauto|]. intros Hn [Heq|Hin]; [|done].
    apply Hp. rewrite <- Heq. by apply list_elem_of_fmap_2.
Qed.

Lemma first_by_key_app seen l k :
  NoDup (hashPoint <$> l) → (∀ p, p ∈ l → hashPoint p ∉ seen) →
  first_by_key seen (l ++ k) = l ++ first_by_key ((hashPoint <$> l) ++ seen) k.
Proof.
  revert seen. induction l as [|p l IH]; intros seen Hnd Hfresh; [done|].
  rewrite fmap_cons in Hnd. apply NoDup_cons in Hnd as [Hp Hnd]. simpl.
  rewrite decide_False by (apply Hfresh, list_elem_of_here). f_equal.
  rewrite IH; [|done|].
  - f_equal. apply first_by_key_ext. intros h.
    rewrite !elem_of_app, !elem_of_cons, elem_of_app. tauto.
  - intros q Hq [Heq|Hin]%elem_of_cons.
    + apply Hp. rewrite <- Heq. by apply list_elem_of_fmap_2.
    + by apply (Hfresh q); [apply list_elem_of_further|].
Qed.

Lemma cutover_sublist A B_all : sublist (cutover A B_all) B_all.
Proof.
  rewrite cutover_filter. destruct (last A); [apply sublist_filter|done].
Qed.

Lemma sublist_NoDup_keys (l k : list TracePoint) :
  sublist l k → NoDup (hashPoint <$> k) → NoDup (hashPoint <$> l).
Proof.
  intros Hsub Hnd. eapply sublist_NoDup; [exact Hnd|]. by apply fmap_sublist.
Qed.

(** the merged buffer in terms of the cut the code computes *)
Lemma trace_is_history_then_cutover (evs : list TraceEvent) :
  Forall effective evs →
  getTrace (trace_run evs) =
    dummyBuffer (trace_run evs) ++
    filter (λ p, hashPoint p ∉ hashPoint <$> dummyBuffer (trace_run evs))
           (cutover (dummyBuffer (trace_run evs)) (realtimeBuffer (trace_run evs))).
Proof.
  intros Heff. unfold getTrace. rewrite (trace_run_merged_ok evs Heff).
  destruct (trace_run_keys_unique_aux evs) as (_ & HdN & _ & HrN & _).
  set (A := dummyBuffer (trace_run evs)) in *.
  set (B := realtimeBuffer (trace_run evs)) in *.
  assert (Hm : merged A B = dedup (A ++ cutover A B)).
  { unfold merged. rewrite cutover_filter.
    destruct (last A) as [h|] eqn:Hlast; [done|].
    apply last_None in Hlast. by rewrite Hlast. }
  rewrite Hm. unfold dedup. rewrite first_by_key_app.
  - f_equal. rewrite app_nil_r. apply first_by_key_filter.
    eapply sublist_NoDup_keys; [apply cutover_sublist|exact HrN].
  - exact HdN.
  - intros p _. apply not_elem_of_nil.
Qed.

(** X4.  The historical buffer has priority: in every state reached without
    a batch answer that inserts nothing, [getTrace] is the historical buffer
    itself, followed by exactly those live points, in their order, whose
    timestamp is strictly later than that of the last historical point and
    whose key the historical buffer does not hold; with an empty historical
    buffer it is the live buffer. *)
Theorem trace_is_history_then_live (evs : list TraceEvent) :
  Forall effective evs →
  getTrace (trace_run evs) =
    match last (dummyBuffer (trace_run evs)) with
    | Some h =>
        dummyBuffer (trace_run evs) ++
        filter (λ p, js_gt (pts p) (pts h) = true ∧
                     hashPoint p ∉ hashPoint <$> dummyBuffer (trace_run evs))
               (realtimeBuffer (trace_run evs))
    | None => realtimeBuffer (trace_run evs)
    end.
Proof.
  intros Heff. rewrite (trace_is_history_then_cutover evs Heff), cutover_filter.
  destruct (last (dummyBuffer (trace_run evs))) as [h|] eqn:Hlast.
  - f_equal. rewrite list_filter_filter. apply list_filter_iff. tauto.
  - apply last_None in Hlast. rewrite Hlast. simpl.
    induction (realtimeBuffer (trace_run evs)) as [|p l IH]; [done|].
    rewrite filter_cons_True by apply not_elem_of_nil. by rewrite IH.
Qed.

(** ** What the buffers hold *)

Lemma live_items_Permutation ps st (keys : list string) :
  (∀ h, h ∈ realtimeHashSet st ↔ h ∈ keys) →
  realtimeBuffer (foldl addToRealtime st ps) ≡ₚ
    realtimeBuffer st ++ first_by_key keys (normalizePoint <$> ps).
Proof.
  revert st keys. induction ps as [|p ps IH]; intros st keys Hkeys.
  - simpl. by rewrite app_nil_r.
  - cbn [foldl fmap list_fmap first_by_key].
    destruct (decide (hashPoint (normalizePoint p) ∈ keys)) as [Hin|Hout].
    + rewrite addToRealtime_known by (by apply Hkeys). by apply IH.
    + assert (Hfresh : hashPoint (normalizePoint p) ∉ realtimeHashSet st)
        by (by rewrite Hkeys).
      rewrite (IH _ (hashPoint (normalizePoint p) :: keys)).
      * destruct (addToRealtime_fresh st p Hfresh) as [-> _].
        rewrite insertSorted_Permutation. by rewrite <- Permutation_middle.
      * intros h. unfold addToRealtime. rewrite decide_False by done. simpl.
        rewrite elem_of_union, elem_of_singleton, elem_of_cons, Hkeys. done.
Qed.

(** X5.  After any sequence of live points the live buffer holds, up to
    order, the normalized points with one point per identity key, the first
    that arrived. *)
Theorem live_buffer_holds_first_arrivals (ps : list TracePoint) :
  realtimeBuffer (foldl addToRealtime TraceService_new ps) ≡ₚ
    dedup (normalizePoint <$> ps) ∧
  length (realtimeBuffer (foldl addToRealtime TraceService_new ps)) ≤ length ps.
Proof.
  assert (Hperm : realtimeBuffer (foldl addToRealtime TraceService_new ps) ≡ₚ
                    dedup (normalizePoint <$> ps)).
  { rewrite (live_items_Permutation ps _ []); [done|].
    intros h. split; [by intros ?%elem_of_empty|by intros ?%elem_of_nil]. }
  split; [exact Hperm|].
  rewrite Hperm. unfold dedup.
  etransitivity; [apply sublist_length, first_by_key_sublist|].
  by rewrite length_fmap.
Qed.

(** X6.  A [get_history] answer that carries an array replaces the
    historical buffer: afterwards it holds, up to order, the normalized
    points of the array that pass the checks, one per identity key; what it
    held before has no influence; the live buffer is untouched. *)
Theorem history_answer_replaces_H st st' m points :
  action m = get_history → data m = Some points →
  dummyBuffer (onHistory st (Some m)) ≡ₚ dedup (normalizePoint <$> omap checked points) ∧
  dummyBuffer (onHistory st' (Some m)) = dummyBuffer (onHistory st (Some m)) ∧
  realtimeBuffer (onHistory st (Some m)) = realtimeBuffer st.
Proof.
  intros Hact Hdata. split_and!.
  - by apply onHistory_holds_the_batch.
  - by apply (onHistory_rebuilds_H st' st m points).
  - unfold onHistory. rewrite decide_True by done. rewrite Hdata.
    by destruct (history_items_live points
      (mkTrace [] ∅ (realtimeBuffer st) (realtimeHashSet st) (finalBuffer st))) as [-> _].
Qed.

Lemma onHistory_live st msg :
  realtimeBuffer (onHistory st msg) = realtimeBuffer st ∧
  realtimeHashSet (onHistory st msg) = realtimeHashSet st.
Proof.
  unfold onHistory. destruct msg as [m|]; [|done].
  destruct (decide (action m = get_history)); [|done].
  destruct (data m) as [points|]; [|done].
  by destruct (history_items_live points
    (mkTrace [] ∅ (realtimeBuffer st) (realtimeHashSet st) (finalBuffer st))) as [-> ->].
Qed.

Lemma addToRealtime_sublist st p :
  sublist (realtimeBuffer st) (realtimeBuffer (addToRealtime st p)).
Proof.
  destruct (decide (hashPoint (normalizePoint p) ∈ realtimeHashSet st)) as [Hin|Hout].
  - by rewrite addToRealtime_known.
  - destruct (addToRealtime_fresh st p Hout) as [-> _].
    unfold insertSorted, splice0. cbn [fst].
    set (r := insertSorted_loop _ _ _ _ _).
    rewrite <- (take_drop r (realtimeBuffer st)) at 1.
    apply sublist_app; [done|]. by apply sublist_cons.
Qed.

(** X7.  The live buffer only grows: as long as [clearTrace] is not called,
    no event removes a live point or changes the order of the points
    already there; a history answer does not touch it at all. *)
Theorem live_buffer_only_grows st (evs : list TraceEvent) :
  ClearTrace ∉ evs →
  sublist (realtimeBuffer st) (realtimeBuffer (foldl trace_step st evs)).
Proof.
  induction evs as [|ev evs IH] using rev_ind; intros Hno; [done|].
  rewrite foldl_snoc. etransitivity; [apply IH|].
  - intros Hin. apply Hno. apply elem_of_app. by left.
  - destruct ev as [data|msg|]; cbn [trace_step].
    + destruct data as [[[lat|] [lon|] ts]|]; simpl; try done.
      apply addToRealtime_sublist.
    + by destruct (onHistory_live (foldl trace_step st evs) msg) as [-> _].
    + destruct Hno. apply elem_of_app. right. apply list_elem_of_here.
Qed.

(** X8.  When the last point of the historical buffer has a timestamp the
    date parser rejects, no live point at all is admitted: the merge is the
    de-duplicated historical buffer, whatever the live buffer holds. *)
Theorem unparseable_cut_admits_nothing A B_all h :
  last A = Some h → pts h = NaN →
  cutover A B_all = [] ∧ merged A B_all = dedup A.
Proof.
  intros Hlast Hnan.
  assert (Hnone : filter (λ p, js_gt (pts p) (pts h) = true) B_all = []).
  { rewrite Hnan. induction B_all as [|q B IH]; [done|].
    rewrite filter_cons_False; [exact IH|]. unfold js_gt. simpl. done. }
  split.
  - by rewrite cutover_filter, Hlast.
  - unfold merged. by rewrite Hlast, Hnone, app_nil_r.
Qed.

(** ** How the operations compose *)

Lemma rebuildFinalBuffer_same_buffers st st' :
  same_buffers st st' → rebuildFinalBuffer st = rebuildFinalBuffer st'.
Proof. intros (Hd & Hds & Hr & Hrs). unfold rebuildFinalBuffer. by rewrite Hd, Hds, Hr, Hrs. Qed.

Lemma history_items_same_buffers points st st' :
  same_buffers st st' → dummyHashSet st = ∅ → Exists accepted points →
  foldl history_item st points = foldl history_item st' points.
Proof.
  revert st st'. induction points as [|p points IH]; intros st st' Hsame Hempty Hex.
  - by apply Exists_nil in Hex.
  - cbn [foldl]. destruct (decide (accepted p)) as [(lat & lon & ts & ->)|Hno].
    + f_equal. simpl. destruct Hsame as (Hd & Hds & Hr & Hrs).
      rewrite !addToDummy_fresh.
      * apply rebuildFinalBuffer_same_buffers. unfold same_buffers. simpl.
        by rewrite Hd, Hds, Hr, Hrs.
      * rewrite <- Hds, Hempty. apply not_elem_of_empty.
      * rewrite Hempty. apply not_elem_of_empty.
    + rewrite !history_item_rejected by done.
      apply Exists_cons in Hex as [Hp|Hex]; [done|]. by apply IH.
Qed.

(** X9.  Receiving the same response twice in a row leaves the service as
    after the first: replaying a [get_history] answer is a no-op. *)
Theorem history_answer_replay st msg :
  onHistory (onHistory st msg) msg = onHistory st msg.
Proof.
  destruct msg as [m|]; [|done].
  destruct (decide (action m = get_history)) as [Hact|Hact];
    [|unfold onHistory; by rewrite !decide_False].
  destruct (data m) as [points|] eqn:Hdata;
    [|unfold onHistory; rewrite !decide_True by done; by rewrite Hdata].
  destruct (decide (Exists accepted points)) as [Hex|Hno].
  - unfold onHistory at 1 3. rewrite !decide_True by done. rewrite Hdata.
    apply history_items_same_buffers; [|done|exact Hex].
    unfold same_buffers. cbn [dummyBuffer dummyHashSet realtimeBuffer realtimeHashSet].
    by destruct (onHistory_live st (Some m)) as [-> ->].
  - apply not_Exists_Forall in Hno; [|apply _].
    rewrite !(onHistory_nothing_accepted _ m points) by done. done.
Qed.

End TraceCoverage.

(** * Further properties of the channel connection *)

Section ChannelCoverage.
Context {Incoming Outgoing : Type}.
Implicit Types (st : WebSocketBaseService Incoming Outgoing).
Implicit Types (ev : ChannelEvent Incoming Outgoing).

(** case analysis of one step of the channel *)
Ltac channel_cases ev :=
  destruct ev as [| |?msg|?i|?i|?i ?msg|?i]; cbn [channel_step];
  unfold initialize, close, sendMessage, transport_error, transport_complete,
    transport_message, timer_fires, finalize_callback, error_handler, connect;
  repeat match goal with
  | |- context [match ?x with _ => _ end] => destruct x eqn:?; simpl in *
  end; simpl in *.

Lemma pipeline_ok_lookup st i p :
  Forall pipeline_ok (pipelines st) → pipelines st !! i = Some p → pipeline_ok p.
Proof. intros Hall Hp. by eapply Forall_lookup_1 in Hall. Qed.

Lemma channel_step_pipeline_ok st ev :
  Forall pipeline_ok (pipelines st) → Forall pipeline_ok (pipelines (channel_step st ev)).
Proof.
  intros Hall. channel_cases ev; try done;
    repeat match goal with
    | Hp : pipelines st !! _ = Some _ |- _ =>
        apply (pipeline_ok_lookup _ _ _ Hall) in Hp; destruct Hp as [? ?]; simpl in *
    | Hb : (_ && _) = true |- _ => apply andb_true_iff in Hb as [? ?]
    | Hb : (_ <? _) = true |- _ => apply Nat.ltb_lt in Hb
    | Hb : (_ <? _) = false |- _ => apply Nat.ltb_ge in Hb
    end;
    repeat first
      [ apply Forall_app; split
      | apply Forall_insert
      | apply Forall_cons; split
      | apply Forall_nil ];
    try done; unfold pipeline_ok, maxRetries in *; simpl; lia.
Qed.

Lemma channel_run_pipeline_ok (evs : list (ChannelEvent Incoming Outgoing)) :
  Forall pipeline_ok (pipelines (channel_run evs)).
Proof.
  unfold channel_run. induction evs as [|ev evs IH] using rev_ind.
  - constructor.
  - rewrite foldl_snoc. by apply channel_step_pipeline_ok.
Qed.

Lemma retry_delay_at_least n : 1 ≤ n → (10000 ≤ retry_delay n)%Z.
Proof.
  intros Hn. unfold retry_delay, reconnectInterval, maxReconnectInterval.
  assert (2 ^ 1 ≤ 2 ^ Z.of_nat n)%Z by (apply Z.pow_le_mono_r; lia).
  lia.
Qed.

(** X12.  In every state the channel can reach, every pipeline has its
    [attempt] at most [maxRetries] and its retry counter at most
    [maxRetries + 1], and every retry timer that is pending was armed with
    the delay of its retry, between 10 and 60 seconds. *)
Theorem counters_stay_within_budget (evs : list (ChannelEvent Incoming Outgoing)) :
  Forall (λ p, attempt p ≤ maxRetries ∧ soFar p ≤ S maxRetries ∧
               ∀ d, phase p = Waiting d →
                    d = retry_delay (soFar p) ∧ (10000 ≤ d ≤ 60000)%Z)
         (pipelines (channel_run evs)).
Proof.
  eapply Forall_impl; [apply channel_run_pipeline_ok|].
  intros [a k ph] [Ha Hph]. simpl in *. split_and!.
  - exact Ha.
  - destruct ph; lia.
  - intros d ->. destruct Hph as [Hk ->]. split; [done|]. split.
    + apply retry_delay_at_least. lia.
    + apply retry_delay_capped.
Qed.

(** ** The socket handle *)

(** an error of a transport sends nothing *)
Lemma transport_error_sent st i : sent (transport_error i st) = sent st.
Proof.
  unfold transport_error. destruct (pipelines st !! i) as [[a k [|d|]]|]; try done.
  destruct (k <? maxRetries)%nat; [done|].
  unfold finalize_callback. simpl.
  destruct (negb (isClosed st) && (a <? maxRetries)%nat); [done|].
  by destruct (isClosed st).
Qed.

Lemma channel_step_handle_ok st ev : handle_ok st → handle_ok (channel_step st ev).
Proof.
  intros Hok. unfold handle_ok in *.
  channel_cases ev; intros j Hj; simplify_eq/=;
    try (rewrite length_app; simpl);
    try rewrite length_insert;
    try (destruct (Hok _ eq_refl) as (Hlen & p & Hp & Hph));
    try (destruct (Hok _ Hj) as (Hlen & p & Hp & Hph)).
  all: try (split; [lia|]).
  all: try (eexists; split; [apply list_lookup_middle; by rewrite ?length_insert|done]).
  all: try (eexists; split; [by rewrite lookup_app_r, Nat.sub_diag|done]).
  all: try by eauto.
  all: match goal with
       | |- ∃ _, <[?i:=?q]> _ !! ?j = _ ∧ _ =>
           destruct (decide (i = j)) as [Heq|Hne];
           [exists q; try rewrite Heq;
            split; [apply list_lookup_insert_eq; by eapply lookup_lt_Some|done]
           |exists p; split; [by rewrite list_lookup_insert_ne|done]]
       end.
Qed.

Lemma channel_run_handle_ok (evs : list (ChannelEvent Incoming Outgoing)) :
  handle_ok (channel_run evs).
Proof.
  unfold channel_run. induction evs as [|ev evs IH] using rev_ind.
  - intros i Hi. done.
  - rewrite foldl_snoc. by apply channel_step_handle_ok.
Qed.

(** X13.  Whenever [sendMessage] accepts a message, the socket it hands the
    message to belongs to the pipeline built last, and that pipeline has
    not ended: it is subscribed to a transport or waiting for a retry. *)
Theorem accepted_message_goes_to_live_pipeline
    (evs : list (ChannelEvent Incoming Outgoing)) (msg : Outgoing) (fails : bool) :
  (sendMessage msg fails (channel_run evs)).2 = true →
  ∃ i p, sent (sendMessage msg fails (channel_run evs)).1 =
           sent (channel_run evs) ++ [(i, msg)] ∧
         S i = length (pipelines (channel_run evs)) ∧
         pipelines (channel_run evs) !! i = Some p ∧
         phase p ≠ Ended.
Proof.
  pose proof (channel_run_handle_ok evs) as Hok.
  unfold sendMessage. destruct (socket (channel_run evs)) as [i|] eqn:Hs; [|done].
  intros _. destruct (Hok i Hs) as (Hlen & p & Hp & Hph).
  exists i, p. cbn [fst]. split_and!; [|done..].
  destruct fails; [|done]. by rewrite transport_error_sent.
Qed.

(** ** Messages and status emissions *)

Lemma channel_step_messages st ev :
  messages st `prefix_of` messages (channel_step st ev).
Proof. channel_cases ev; try done; by apply prefix_app_r. Qed.

Lemma channel_steps_messages st (evs : list (ChannelEvent Incoming Outgoing)) :
  messages st `prefix_of` messages (foldl channel_step st evs).
Proof.
  induction evs as [|ev evs IH] using rev_ind; [done|].
  rewrite foldl_snoc. etransitivity; [exact IH|apply channel_step_messages].
Qed.

(** X14.  No event makes the channel forget a message: what [messages$] has
    emitted only grows at its end, and a subscriber of the last-value
    observable receives, at the moment it subscribes, the last message
    emitted so far. *)
Theorem messages_are_kept (evs evs' : list (ChannelEvent Incoming Outgoing)) :
  messages (channel_run evs) `prefix_of` messages (channel_run (evs ++ evs')) ∧
  onMessage (channel_run (evs ++ evs')) = last (messages (channel_run (evs ++ evs'))).
Proof.
  split.
  - unfold channel_run. rewrite foldl_app. apply channel_steps_messages.
  - unfold onMessage. apply latestMessage_last.
Qed.

Lemma channel_step_emissions_ok st ev :
  emissions_ok st → emissions_ok (channel_step st ev).
Proof.
  intros (Hc & Hm & Hs). unfold emissions_ok.
  channel_cases ev;
    rewrite ?filter_app, ?length_app, ?length_insert, ?last_snoc, ?last_app;
    simpl; rewrite ?filter_app, ?length_app, ?last_snoc; simpl;
    try (split_and!; first [done|lia]).
Qed.

Lemma channel_run_emissions_ok (evs : list (ChannelEvent Incoming Outgoing)) :
  emissions_ok (channel_run evs).
Proof.
  unfold channel_run. induction evs as [|ev evs IH] using rev_ind.
  - done.
  - rewrite foldl_snoc. by apply channel_step_emissions_ok.
Qed.

(** X15.  The channel emits [connecting] once for every pipeline it builds
    and [connected] once for every message it delivers, and for nothing
    else: opening the transport alone never makes the status [connected],
    so a channel whose status is [connected] has received a message. *)
Theorem connected_means_message_received (evs : list (ChannelEvent Incoming Outgoing)) :
  length (filter (λ s, s = connecting) (statusEmitted (channel_run evs))) =
    length (pipelines (channel_run evs)) ∧
  length (filter (λ s, s = connected) (statusEmitted (channel_run evs))) =
    length (messages (channel_run evs)) ∧
  (connectionStatus (channel_run evs) = connected → messages (channel_run evs) ≠ []).
Proof.
  destruct (channel_run_emissions_ok evs) as (Hc & Hm & Hs).
  split_and!; [exact Hc|exact Hm|].
  intros Hst Hnil. rewrite Hnil in Hm. simpl in Hm.
  rewrite Hst in Hs.
  destruct (last (statusEmitted (channel_run evs))) as [s|] eqn:Hlast; [|done].
  simpl in Hs. subst s. apply last_Some in Hlast as [l Hl].
  rewrite Hl, filter_app in Hm. simpl in Hm. rewrite length_app in Hm. simpl in Hm. lia.
Qed.

(** ** What the console tells *)

Lemma gave_up_insert ps i q p0 :
  ps !! i = Some p0 → phase p0 ≠ Ended → gave_up ps → gave_up (<[i:=q]> ps).
Proof.
  intros Hi Hph (p & [j Hj]%list_elem_of_lookup & Ha & He).
  exists p. split; [|done]. apply list_elem_of_lookup. exists j.
  rewrite list_lookup_insert_ne; [done|]. intros ->. congruence.
Qed.

Lemma gave_up_app ps qs : gave_up ps → gave_up (ps ++ qs).
Proof. intros (p & Hp & Ha & He). exists p. split; [|done]. apply elem_of_app. by left. Qed.

Lemma gave_up_here ps i k p0 :
  ps !! i = Some p0 → gave_up (<[i:=mkPipeline maxRetries k Ended]> ps).
Proof.
  intros Hi. exists (mkPipeline maxRetries k Ended). split; [|done].
  apply list_elem_of_lookup. exists i. apply list_lookup_insert_eq.
  by eapply lookup_lt_Some.
Qed.

Lemma channel_step_gave_up st ev :
  Forall pipeline_ok (pipelines st) →
  (Error_max_attempts ∈ console st → gave_up (pipelines st)) →
  Error_max_attempts ∈ console (channel_step st ev) →
  gave_up (pipelines (channel_step st ev)).
Proof.
  intros Hall Hinv.
  channel_cases ev; rewrite ?elem_of_app, ?elem_of_cons, ?elem_of_nil;
    intros Hin;
    repeat match goal with
    | Hp : pipelines st !! _ = Some _ |- _ =>
        pose proof (pipeline_ok_lookup _ _ _ Hall Hp) as [? _]; simpl in *;
        revert Hp
    end; intros;
    repeat match goal with
    | Hb : (_ && _) = false |- _ => apply andb_false_iff in Hb as [Hb|Hb]
    | Hb : (_ <? _) = false |- _ => apply Nat.ltb_ge in Hb
    | Hb : negb _ = false |- _ => apply negb_false_iff in Hb
    end;
    try congruence;
    try (match goal with
         | Hge : maxRetries ≤ ?a, Hle : ?a ≤ maxRetries |- _ =>
             assert (a = maxRetries) as -> by lia; by eapply gave_up_here
         end);
    try (apply gave_up_app);
    try (eapply gave_up_insert; [eassumption|done|]);
    try (apply Hinv; clear -Hin; intuition congruence).
Qed.

Lemma channel_step_closed_inv st ev (evs : list (ChannelEvent Incoming Outgoing)) :
  (isClosed st = true → Close ∈ evs) →
  (Log_closed_intentionally ∈ console st → Close ∈ evs) →
  (isClosed (channel_step st ev) = true → Close ∈ evs ++ [ev]) ∧
  (Log_closed_intentionally ∈ console (channel_step st ev) → Close ∈ evs ++ [ev]).
Proof.
  intros Hc Hl.
  channel_cases ev; rewrite ?elem_of_app, ?elem_of_cons, ?elem_of_nil;
    repeat match goal with
    | Hb : (_ && _) = false |- _ => apply andb_false_iff in Hb as [Hb|Hb]
    | Hb : negb _ = false |- _ => apply negb_false_iff in Hb
    end;
    split; intros; rewrite ?elem_of_app, ?list_elem_of_singleton in *;
    try congruence; try (intuition congruence).
Qed.

Lemma channel_step_send_inv st ev (evs : list (ChannelEvent Incoming Outgoing)) :
  (Warn_send_not_connected ∈ console st → ∃ msg fails, SendMessage msg fails ∈ evs) →
  Warn_send_not_connected ∈ console (channel_step st ev) →
  ∃ msg fails, SendMessage msg fails ∈ evs ++ [ev].
Proof.
  intros Hinv.
  assert (Hold : Warn_send_not_connected ∈ console st →
                 ∃ msg fails, SendMessage msg fails ∈ evs ++ [ev]).
  { intros (msg & fails & Hin)%Hinv. exists msg, fails. apply elem_of_app. by left. }
  channel_cases ev; rewrite ?elem_of_app, ?elem_of_cons, ?elem_of_nil;
    intros Hin; try (apply Hold; clear -Hin; intuition congruence).
  all: eexists _, _; apply elem_of_app; right; apply list_elem_of_here.
Qed.

(** X16.  The console tells the two ways a channel stops apart, and
    truthfully: "closed intentionally" is written only if [close()] was
    called; "maximum reconnection attempts reached" only if the pipeline
    built by [connect(maxRetries)] has ended; and the warning of
    [sendMessage] only if a message was sent. *)
Theorem console_entries_are_truthful (evs : list (ChannelEvent Incoming Outgoing)) :
  (Log_closed_intentionally ∈ console (channel_run evs) → Close ∈ evs) ∧
  (Error_max_attempts ∈ console (channel_run evs) →
     ∃ p, p ∈ pipelines (channel_run evs) ∧ attempt p = maxRetries ∧ phase p = Ended) ∧
  (Warn_send_not_connected ∈ console (channel_run evs) →
     ∃ msg fails, SendMessage msg fails ∈ evs).
Proof.
  cut ((isClosed (channel_run evs) = true → Close ∈ evs) ∧
       (Log_closed_intentionally ∈ console (channel_run evs) → Close ∈ evs) ∧
       (Error_max_attempts ∈ console (channel_run evs) →
          gave_up (pipelines (channel_run evs))) ∧
       (Warn_send_not_connected ∈ console (channel_run evs) →
          ∃ msg fails, SendMessage msg fails ∈ evs)).
  { intros (_ & ? & ? & ?). done. }
  induction evs as [|ev evs IH] using rev_ind.
  - split_and!; try done; by intros ?%elem_of_nil.
  - destruct IH as (Hc & Hl & Hg & Hs).
    pose proof (channel_run_pipeline_ok evs) as Hall.
    unfold channel_run in *. rewrite foldl_snoc.
    destruct (channel_step_closed_inv _ ev evs Hc Hl) as [Hc' Hl'].
    split_and!; [exact Hc'|exact Hl'| |].
    + by apply channel_step_gave_up.
    + by apply channel_step_send_inv.
Qed.

(** ** Sending *)

(** C8, as the code has it.  In every state the channel can reach,
    [sendMessage] returns a boolean: [true] exactly when the service holds a
    socket handle, whatever the connection status.  The message is then
    handed to the socket of the pipeline built last, which is subscribed or
    waiting for a retry.  When the send does not fail nothing else changes.
    When it fails the caller gets [true] all the same and the pipeline sees
    an error: with retries left the retry timer is armed and the warning of
    [retry] is logged, with none left the pipeline ends in the [error]
    handler.  Without a handle [sendMessage] returns [false], logs its
    warning and sends nothing. *)
Theorem sendMessage_accepts_with_socket
    (evs : list (ChannelEvent Incoming Outgoing)) (msg : Outgoing) (fails : bool) :
  let st := channel_run evs in
  let r := sendMessage msg fails st in
  (r.2 = true ↔ is_Some (socket st)) ∧
  (socket st = None →
     r.2 = false ∧
     sent r.1 = sent st ∧
     console r.1 = console st ++ [Warn_send_not_connected] ∧
     pipelines r.1 = pipelines st ∧
     connectionStatus r.1 = connectionStatus st ∧
     socket r.1 = None) ∧
  (∀ i, socket st = Some i →
     r.2 = true ∧
     sent r.1 = sent st ++ [(i, msg)] ∧
     S i = length (pipelines st) ∧
     (∃ p, pipelines st !! i = Some p ∧ phase p ≠ Ended) ∧
     (fails = false →
        console r.1 = console st ∧
        pipelines r.1 = pipelines st ∧
        connectionStatus r.1 = connectionStatus st ∧
        socket r.1 = socket st) ∧
     (fails = true → ∀ a k, pipelines st !! i = Some (mkPipeline a k Subscribed) →
        if (k <? maxRetries)%nat then
          pipelines r.1 =
            <[i := mkPipeline a (S k) (Waiting (retry_delay (S k)))]> (pipelines st) ∧
          console r.1 = console st ++ [Warn_retry (S k) (retry_delay (S k))] ∧
          connectionStatus r.1 = connectionStatus st
        else
          pipelines r.1 !! i = Some (mkPipeline a (S k) Ended) ∧
          Error_fatal ∈ console r.1 ∧
          disconnected ∈ statusEmitted r.1 ∧
          socket r.1 ≠ Some i)).
Proof.
  intros st r. subst r.
  pose proof (channel_run_handle_ok evs) as Hok. fold st in Hok.
  unfold sendMessage. destruct (socket st) as [s|] eqn:Hs; cbn [fst snd].
  - split; [split; [by eexists|done]|]. split; [done|].
    intros i [= <-]. destruct (Hok s Hs) as (Hlen & p & Hp & Hph).
    split_and!; [done| |done|by exists p| |].
    + destruct fails; [|done]. by rewrite transport_error_sent.
    + by intros ->.
    + intros -> a k Hk. unfold transport_error. simpl. rewrite Hk.
      destruct (k <? maxRetries)%nat eqn:Hlt; [done|].
      unfold finalize_callback, error_handler, connect. simpl.
      assert (Hi : s < length (pipelines st)) by (by eapply lookup_lt_Some).
      destruct (negb (isClosed st) && (a <? maxRetries)%nat); simpl;
        [|destruct (isClosed st); simpl].
      * split_and!.
        -- rewrite lookup_app_l by (by rewrite length_insert).
           by apply list_lookup_insert_eq.
        -- rewrite !elem_of_app, !list_elem_of_singleton. tauto.
        -- rewrite !elem_of_app, !list_elem_of_singleton. tauto.
        -- rewrite length_insert. intros [= Heq]. lia.
      * split_and!; [by apply list_lookup_insert_eq| | |done];
          rewrite !elem_of_app, !list_elem_of_singleton; tauto.
      * split_and!; [by apply list_lookup_insert_eq| | |done];
          rewrite !elem_of_app, !list_elem_of_singleton; tauto.
  - split; [split; [done|by intros [? ?]]|]. split; [done|]. by intros i.
Qed.

(** ** Connection attempts *)






End ChannelCoverage.

(** * Properties of the date helpers *)

Section DateProperties.

Local Open Scope Z_scope.

Lemma TimeClip_in_range z :
  Z.abs z ≤ 8640000000000000 → ES.TimeClip (Num z) = Num z.
Proof.
  intros Hz. unfold ES.TimeClip.
  destruct (Z.ltb_spec 8640000000000000 (Z.abs z)); [lia|done].
Qed.

Lemma TimeClip_Num d t : ES.TimeClip d = Num t → d = Num t ∧ Z.abs t ≤ 8640000000000000.
Proof.
  destruct d as [|z]; [done|]. unfold ES.TimeClip.
  destruct (Z.ltb_spec 8640000000000000 (Z.abs z)); [done|]. by intros [= ->].
Qed.

Lemma time_fields t :
  ES.Day t * ES.msPerDay + ES.HourFromTime t * 3600000 = 3600000 * (t / 3600000) ∧
  3600000 * (t / 3600000) + ES.MinFromTime t * 60000 = 60000 * (t / 60000) ∧
  60000 * (t / 60000) + ES.SecFromTime t * 1000 = 1000 * (t / 1000) ∧
  1000 * (t / 1000) + DatePrototype.msFromTime t = t.
Proof.
  unfold ES.Day, ES.msPerDay, ES.HourFromTime, ES.MinFromTime, ES.SecFromTime,
    DatePrototype.msFromTime.
  replace (t / 86400000) with (t / 3600000 / 24) by (rewrite Z.div_div; [done|lia..]).
  replace (t / 3600000) with (t / 60000 / 60) by (rewrite Z.div_div; [done|lia..]).
  replace (t / 60000) with (t / 1000 / 60) by (rewrite Z.div_div; [done|lia..]).
  set (a := t / 1000).
  pose proof (Z.div_mod t 1000 ltac:(lia)).
  pose proof (Z.div_mod a 60 ltac:(lia)).
  pose proof (Z.div_mod (a / 60) 60 ltac:(lia)).
  pose proof (Z.div_mod (a / 60 / 60) 24 ltac:(lia)).
  fold a in H. lia.
Qed.

Lemma minute_floor t :
  ES.MakeDate (ES.Day t) (ES.MakeTime (ES.HourFromTime t) (ES.MinFromTime t) 0 0)
  = 60000 * (t / 60000).
Proof.
  destruct (time_fields t) as (H1 & H2 & _). unfold ES.MakeDate, ES.MakeTime. lia.
Qed.

Lemma second_floor t :
  ES.MakeDate (ES.Day t)
    (ES.MakeTime (ES.HourFromTime t) (ES.MinFromTime t) (ES.SecFromTime t) 0)
  = 1000 * (t / 1000).
Proof.
  destruct (time_fields t) as (H1 & H2 & H3 & _). unfold ES.MakeDate, ES.MakeTime. lia.
Qed.

Lemma setUTCSeconds_floor t :
  Z.abs t ≤ 8640000000000000 →
  DatePrototype.setUTCSeconds (Num t) (Num 0) (Num 0) = Num (60000 * (t / 60000)).
Proof.
  intros Ht. unfold DatePrototype.setUTCSeconds. rewrite minute_floor.
  apply TimeClip_in_range.
  pose proof (Z.div_mod t 60000 ltac:(lia)).
  pose proof (Z.mod_pos_bound t 60000 ltac:(lia)). 
  assert (-144000000000 ≤ t / 60000) by (apply Z.div_le_lower_bound; lia).
  lia.
Qed.

Lemma civil_roundtrip day :
  ES.day_of_civil (ES.civil_of_day day).1.1 (ES.civil_of_day day).1.2
    + (ES.civil_of_day day).2 - 1 = day ∧
  0 ≤ (ES.civil_of_day day).1.2 ≤ 11.
Proof.
  unfold ES.civil_of_day, ES.day_of_civil. cbn [fst snd].
  set (z := day + 719468).
  set (era := z / 146097).
  set (doe := z - era * 146097).
  set (yoe := (doe - doe / 1460 + doe / 36524 - doe / 146096) / 365).
  set (doy := doe - (365 * yoe + yoe / 4 - yoe / 100)).
  set (mp := (5 * doy + 2) / 153).
  assert (Hdoe : 0 <= doe < 146097) by (subst doe era; Z.div_mod_to_equations; lia).
  assert (Hyoe : 0 <= yoe <= 399) by (subst yoe; Z.div_mod_to_equations; lia).
  assert (Hdoy : 0 <= doy <= 365) by (subst doy yoe; Z.div_mod_to_equations; lia).
  assert (Hmp : 0 <= mp <= 11) by (subst mp; Z.div_mod_to_equations; lia).
  destruct (Z.ltb_spec mp 10).
  - replace (mp + 3 - 1 + 1) with (mp + 3) by lia.
    destruct (Z.leb_spec (mp + 3) 2); [lia|]. destruct (Z.ltb_spec 2 (mp + 3)); [|lia].
    replace (yoe + era * 400 + 0) with (yoe + era * 400) by lia.
    assert (He : (yoe + era * 400) / 400 = era) by (Z.div_mod_to_equations; lia).
    rewrite He. replace (yoe + era * 400 - era * 400) with yoe by lia.
    replace (mp + 3 - 3) with mp by lia.
    subst doy z doe. lia.
  - replace (mp - 9 - 1 + 1) with (mp - 9) by lia.
    destruct (Z.leb_spec (mp - 9) 2); [|lia]. destruct (Z.ltb_spec 2 (mp - 9)); [lia|].
    replace (yoe + era * 400 + 1 - 1) with (yoe + era * 400) by lia.
    assert (He : (yoe + era * 400) / 400 = era) by (Z.div_mod_to_equations; lia).
    rewrite He. replace (yoe + era * 400 - era * 400) with yoe by lia.
    replace (mp - 9 + 9) with mp by lia.
    subst doy z doe. lia.
Qed.

Lemma MakeDay_of_fields t :
  ES.MakeDay (ES.YearFromTime t) (ES.MonthFromTime t) (ES.DateFromTime t) = ES.Day t.
Proof.
  unfold ES.MakeDay, ES.YearFromTime, ES.MonthFromTime, ES.DateFromTime.
  destruct (civil_roundtrip (ES.Day t)) as [Hrt Hm].
  rewrite Z.div_small, Z.mod_small by lia. rewrite Z.add_0_r. exact Hrt.
Qed.


Lemma TimeClip_idemp d : ES.TimeClip (ES.TimeClip d) = ES.TimeClip d.
Proof.
  destruct d as [|z]; [done|]. unfold ES.TimeClip.
  destruct (8640000000000000 <? Z.abs z) eqn:Hz; [done|]. by rewrite Hz.
Qed.

Lemma minute_floor_in_range t :
  Z.abs t ≤ 8640000000000000 → Z.abs (60000 * (t / 60000)) ≤ 8640000000000000.
Proof.
  intros Ht.
  pose proof (Z.div_mod t 60000 ltac:(lia)).
  pose proof (Z.mod_pos_bound t 60000 ltac:(lia)).
  assert (-144000000000 ≤ t / 60000) by (apply Z.div_le_lower_bound; lia).
  lia.
Qed.

Lemma second_floor_in_range t :
  Z.abs t ≤ 8640000000000000 → Z.abs (1000 * (t / 1000)) ≤ 8640000000000000.
Proof.
  intros Ht.
  pose proof (Z.div_mod t 1000 ltac:(lia)).
  pose proof (Z.mod_pos_bound t 1000 ltac:(lia)).
  assert (-8640000000000 ≤ t / 1000) by (apply Z.div_le_lower_bound; lia).
  lia.
Qed.

(** what [ceilToNextMinute] returns for a valid date, as arithmetic *)
Lemma ceilToNextMinute_value t :
  Z.abs t ≤ 8640000000000000 →
  ceilToNextMinute (Num t) =
    Num (if decide (t mod 60000 = 0) then t else 60000 * (t / 60000) + 60000).
Proof.
  intros Ht. unfold ceilToNextMinute. rewrite TimeClip_in_range by done.
  unfold ES.getUTCSeconds, DatePrototype.getUTCMilliseconds, ES.getUTCMinutes, ES.getter.
  unfold js_gt, js_lt.
  destruct (time_fields t) as (_ & _ & Hs & Hms).
  assert (0 ≤ ES.SecFromTime t < 60) by (apply Z.mod_pos_bound; lia).
  assert (0 ≤ DatePrototype.msFromTime t < 1000) by (apply Z.mod_pos_bound; lia).
  pose proof (Z.div_mod t 60000 ltac:(lia)) as Hdm.
  pose proof (Z.mod_pos_bound t 60000 ltac:(lia)) as Hmb.
  pose proof (minute_floor_in_range t Ht) as Hfl.
  rewrite setUTCSeconds_floor by done.
  destruct (decide (t mod 60000 = 0)) as [Hz|Hnz].
  - destruct (Z.ltb_spec 0 (ES.SecFromTime t)); [lia|].
    destruct (Z.ltb_spec 0 (DatePrototype.msFromTime t)); [lia|].
    simpl. f_equal. lia.
  - assert (Hor : (0 <? ES.SecFromTime t) || (0 <? DatePrototype.msFromTime t) = true).
    { apply orb_true_iff.
      destruct (Z.ltb_spec 0 (ES.SecFromTime t)); [by left|].
      destruct (Z.ltb_spec 0 (DatePrototype.msFromTime t)); [by right|]. lia. }
    rewrite Hor. set (r := 60000 * (t / 60000)) in *.
    unfold DatePrototype.js_add, DatePrototype.setUTCMinutes.
    destruct (time_fields r) as (H1 & H2 & H3 & H4).
    assert (Hr : ES.MakeDate (ES.Day r)
              (ES.MakeTime (ES.HourFromTime r) (ES.MinFromTime r + 1)
                 (ES.SecFromTime r) (DatePrototype.msFromTime r)) = r + 60000)
      by (unfold ES.MakeDate, ES.MakeTime; lia).
    rewrite Hr. apply TimeClip_in_range.
    assert (t / 60000 < 144000000000) by (apply Z.div_lt_upper_bound; lia).
    lia.
Qed.

(** X20.  [ceilToNextMinute] returns the first whole UTC minute at or after
    the instant: a whole minute already is returned as it is, any other
    instant moves up by less than a minute.  An invalid date stays
    invalid. *)
Theorem ceilToNextMinute_rounds_up d :
  match ES.TimeClip d with
  | NaN => ceilToNextMinute d = NaN
  | Num t => ∃ r, ceilToNextMinute d = Num r ∧ r mod 60000 = 0 ∧ t ≤ r < t + 60000
  end.
Proof.
  destruct (ES.TimeClip d) as [|t] eqn:Hd.
  - unfold ceilToNextMinute. by rewrite Hd.
  - apply TimeClip_Num in Hd as [-> Ht]. rewrite ceilToNextMinute_value by done.
    eexists. split; [done|].
    destruct (decide (t mod 60000 = 0)); Z.div_mod_to_equations; lia.
Qed.

Lemma floorToPrevMinute_value t :
  Z.abs t ≤ 8640000000000000 → floorToPrevMinute (Num t) = Num (60000 * (t / 60000)).
Proof.
  intros Ht. unfold floorToPrevMinute.
  by rewrite TimeClip_in_range, setUTCSeconds_floor.
Qed.

(** X21.  [floorToPrevMinute] returns the last whole UTC minute at or
    before the instant, also for instants before 1970; an invalid date stays
    invalid. *)
Theorem floorToPrevMinute_rounds_down d :
  match ES.TimeClip d with
  | NaN => floorToPrevMinute d = NaN
  | Num t => ∃ r, floorToPrevMinute d = Num r ∧ r mod 60000 = 0 ∧ r ≤ t < r + 60000
  end.
Proof.
  destruct (ES.TimeClip d) as [|t] eqn:Hd.
  - unfold floorToPrevMinute. by rewrite Hd.
  - apply TimeClip_Num in Hd as [-> Ht]. rewrite floorToPrevMinute_value by done.
    eexists. split; [done|]. Z.div_mod_to_equations; lia.
Qed.

Lemma year_test_false y :
  ¬ (0 ≤ y ≤ 99) → (0 <=? y) && (y <=? 99) = false.
Proof.
  intros Hy. destruct (Z.leb_spec 0 y); [|done].
  destruct (Z.leb_spec y 99); [lia|done].
Qed.

Lemma parseIsoToUtc_value `{JSDate} iso t :
  Date_new iso = Num t → Z.abs t ≤ 8640000000000000 →
  ¬ (0 ≤ ES.YearFromTime t ≤ 99) →
  parseIsoToUtc iso = Num (1000 * (t / 1000)).
Proof.
  intros Hd Ht Hy. unfold parseIsoToUtc. rewrite Hd.
  unfold ES.getUTCFullYear, ES.getUTCMonth, ES.getUTCDate, ES.getUTCHours,
    ES.getUTCMinutes, ES.getUTCSeconds, ES.getter, ES.Date_UTC.
  rewrite year_test_false by done. cbv zeta.
  rewrite MakeDay_of_fields, second_floor, TimeClip_idemp.
  by apply TimeClip_in_range, second_floor_in_range.
Qed.

(** X22.  For a string the date parser accepts, outside the years 0 to 99,
    [parseIsoToUtc] returns the parsed instant with its milliseconds
    dropped (rounded down to the whole second): it is the parsed instant
    itself exactly when that has no milliseconds. *)
Theorem parseIsoToUtc_drops_milliseconds `{JSDate} iso t :
  Date_new iso = Num t → Z.abs t ≤ 8640000000000000 →
  ¬ (0 ≤ ES.YearFromTime t ≤ 99) →
  parseIsoToUtc iso = Num (1000 * (t / 1000)) ∧
  (t mod 1000 = 0 → parseIsoToUtc iso = Date_new iso).
Proof.
  intros Hd Ht Hy. rewrite (parseIsoToUtc_value iso t) by done. split; [done|].
  intros Hz. rewrite Hd. f_equal. Z.div_mod_to_equations; lia.
Qed.

(** X23.  The bounds the trace control derives from a timestamp
    (trace-control.ts, [ngOnInit]).  The lower bound,
    [floorToPrevMinute(parseIsoToUtc(iso))], is the whole minute that holds
    the instant.  The upper bound, [ceilToNextMinute(parseIsoToUtc(iso))],
    is a whole minute less than a minute after the instant; because the
    milliseconds are dropped before rounding up, it lies before the instant,
    by less than a second, exactly when the instant is in the first second
    of a minute but not at its start. *)
Theorem calendar_bounds `{JSDate} iso t :
  Date_new iso = Num t → Z.abs t ≤ 8640000000000000 →
  ¬ (0 ≤ ES.YearFromTime t ≤ 99) →
  floorToPrevMinute (parseIsoToUtc iso) = Num (60000 * (t / 60000)) ∧
  ∃ r, ceilToNextMinute (parseIsoToUtc iso) = Num r ∧ r mod 60000 = 0 ∧
       t - 1000 < r < t + 60000 ∧
       (r < t ↔ 0 < t mod 60000 < 1000).
Proof.
  intros Hd Ht Hy. rewrite (parseIsoToUtc_value iso t) by done.
  pose proof (second_floor_in_range t Ht) as Hs.
  rewrite floorToPrevMinute_value, ceilToNextMinute_value by done.
  split.
  - f_equal. Z.div_mod_to_equations; lia.
  - eexists. split; [done|].
    destruct (decide ((1000 * (t / 1000)) mod 60000 = 0));
      Z.div_mod_to_equations; lia.
Qed.

Lemma two_digits n :
  0 ≤ n < 60 →
  DatePrototype.padStart0 2 (DatePrototype.Number_toString (Num n)) =
    String (Decimal6.digit_char (n / 10)) (String (Decimal6.digit_char (n mod 10)) "").
Proof.
  intros Hn.
  assert (Hall : forallb (λ k : nat,
            bool_decide (DatePrototype.padStart0 2
                           (DatePrototype.Number_toString (Num (Z.of_nat k))) =
                         String (Decimal6.digit_char (Z.of_nat k / 10))
                           (String (Decimal6.digit_char (Z.of_nat k mod 10)) "")))
          (seq 0 60) = true) by (vm_compute; reflexivity).
  rewrite List.forallb_forall in Hall.
  assert (Hin : In (Z.to_nat n) (seq 0 60)) by (apply in_seq; lia).
  apply Hall in Hin. rewrite Z2Nat.id in Hin by lia.
  by apply bool_decide_eq_true in Hin.
Qed.

(** X24.  For a valid date [formatUtcTime] gives five characters: the two
    digits of the UTC hour, a colon, the two digits of the UTC minute; the
    text of a date and of its [floorToPrevMinute] are the same.  For an
    invalid date it gives ["NaN:NaN"]. *)
Theorem formatUtcTime_is_HH_mm t :
  formatUtcTime (Num t) =
    String (Decimal6.digit_char (ES.HourFromTime t / 10))
   (String (Decimal6.digit_char (ES.HourFromTime t mod 10))
   (String ":"
   (String (Decimal6.digit_char (ES.MinFromTime t / 10))
   (String (Decimal6.digit_char (ES.MinFromTime t mod 10)) "")))) ∧
  formatUtcTime (floorToPrevMinute (Num t)) =
    (if 8640000000000000 <? Z.abs t then "NaN:NaN"%string else formatUtcTime (Num t)) ∧
  formatUtcTime NaN = "NaN:NaN"%string.
Proof.
  assert (Hfmt : ∀ z, formatUtcTime (Num z) =
    String (Decimal6.digit_char (ES.HourFromTime z / 10))
   (String (Decimal6.digit_char (ES.HourFromTime z mod 10))
   (String ":"
   (String (Decimal6.digit_char (ES.MinFromTime z / 10))
   (String (Decimal6.digit_char (ES.MinFromTime z mod 10)) ""))))).
  { intros z. unfold formatUtcTime, ES.getUTCHours, ES.getUTCMinutes, ES.getter.
    assert (0 ≤ ES.HourFromTime z < 24) by (apply Z.mod_pos_bound; lia).
    assert (0 ≤ ES.MinFromTime z < 60) by (apply Z.mod_pos_bound; lia).
    rewrite !two_digits by lia. done. }
  split_and!; [apply Hfmt| |done].
  destruct (Z.ltb_spec 8640000000000000 (Z.abs t)) as [Hout|Hin].
  - unfold floorToPrevMinute, ES.TimeClip.
    destruct (Z.ltb_spec 8640000000000000 (Z.abs t)); [done|lia].
  - rewrite floorToPrevMinute_value by done. rewrite !Hfmt.
    assert (Hh : ES.HourFromTime (60000 * (t / 60000)) = ES.HourFromTime t).
    { unfold ES.HourFromTime. f_equal. Z.div_mod_to_equations; lia. }
    assert (Hm : ES.MinFromTime (60000 * (t / 60000)) = ES.MinFromTime t).
    { unfold ES.MinFromTime. f_equal. Z.div_mod_to_equations; lia. }
    by rewrite Hh, Hm.
Qed.

Section DatePicker.
Context `{JSLocalTime}.

(** X25.  The way of a date through the date picker (trace-calendar.ts):
    [toUtcDateOnly] gives the local midnight of the UTC day of the instant;
    when that midnight is a date the browser's zone reads back on the same
    day, [buildUtcDate] on it with an hour and a minute gives that hour and
    minute of the UTC day of the instant, and with the instant's own UTC hour
    and minute it gives the instant rounded down to the minute. *)
Theorem picker_day_round_trip t h m :
  Z.abs t ≤ 8640000000000000 →
  ¬ (0 ≤ ES.YearFromTime t ≤ 99) →
  Z.abs (DatePrototype.UTC (ES.Day t * ES.msPerDay)) ≤ 8640000000000000 →
  ES.Day (DatePrototype.LocalTime (DatePrototype.UTC (ES.Day t * ES.msPerDay))) = ES.Day t →
  buildUtcDate (toUtcDateOnly (Num t)) (Num h) (Num m) =
    ES.TimeClip (Num (ES.Day t * ES.msPerDay + h * 3600000 + m * 60000)) ∧
  buildUtcDate (toUtcDateOnly (Num t)) (ES.getUTCHours (Num t)) (ES.getUTCMinutes (Num t)) =
    floorToPrevMinute (Num t).
Proof.
  intros Ht Hy Hu Hday.
  assert (Hpick : toUtcDateOnly (Num t) = Num (DatePrototype.UTC (ES.Day t * ES.msPerDay))).
  { unfold toUtcDateOnly, ES.getUTCFullYear, ES.getUTCMonth, ES.getUTCDate, ES.getter,
      DatePrototype.Date_of_components.
    rewrite year_test_false by done. cbv zeta. rewrite MakeDay_of_fields.
    replace (ES.MakeDate (ES.Day t) (ES.MakeTime 0 0 0 0)) with (ES.Day t * ES.msPerDay)
      by (unfold ES.MakeDate, ES.MakeTime; lia).
    by apply TimeClip_in_range. }
  assert (Hbuild : ∀ h' m', buildUtcDate (toUtcDateOnly (Num t)) (Num h') (Num m') =
            ES.TimeClip (Num (ES.MakeDate (ES.Day t) (ES.MakeTime h' m' 0 0)))).
  { intros h' m'. rewrite Hpick.
    unfold buildUtcDate, DatePrototype.getFullYear, DatePrototype.getMonth,
      DatePrototype.getDate, ES.getter, ES.Date_UTC.
    unfold ES.YearFromTime, ES.MonthFromTime, ES.DateFromTime. rewrite Hday.
    fold (ES.YearFromTime t) (ES.MonthFromTime t) (ES.DateFromTime t).
    rewrite year_test_false by done. cbv zeta.
    by rewrite MakeDay_of_fields, TimeClip_idemp. }
  split.
  - rewrite Hbuild. do 2 f_equal. unfold ES.MakeDate, ES.MakeTime. lia.
  - unfold ES.getUTCHours, ES.getUTCMinutes, ES.getter. rewrite Hbuild.
    unfold floorToPrevMinute. by rewrite (TimeClip_in_range t).
Qed.

End DatePicker.

End DateProperties.

(** * Properties of the request service *)

Section RequestProperties.
Context {Incoming Params : Type}.

(** X19.  [sendRequest] returns an id and writes its "request sent" line to
    the console whether or not the request went out: the id is the caller's
    when one is given, else the generated one.  When the service holds a
    socket, the request with that id is handed to it, the socket being that
    of the pipeline built last, and when the send does not fail nothing else
    changes.  When it holds none, nothing is sent, [sendMessage] warns, and
    the line is written all the same; no connection attempt is started and
    the status does not change. *)
Theorem sendRequest_returns_id_sent_or_not
    (evs : list (ChannelEvent Incoming (RequestMessage Params)))
    (action : RequestAction) (params : option Params)
    (request_id : option string) (uuid : string) (fails : bool) :
  let st := channel_run evs in
  let r := sendRequest action params request_id uuid fails st in
  r.2 = default uuid request_id ∧
  last (console r.1) = Some (Log_request_sent action r.2) ∧
  match socket st with
  | Some i =>
      sent r.1 = sent st ++ [(i, mkRequest action params r.2)] ∧
      S i = length (pipelines st) ∧
      (fails = false →
         console r.1 = console st ++ [Log_request_sent action r.2] ∧
         pipelines r.1 = pipelines st ∧
         connectionStatus r.1 = connectionStatus st)
  | None =>
      sent r.1 = sent st ∧
      console r.1 =
        console st ++ [Warn_send_not_connected; Log_request_sent action r.2] ∧
      pipelines r.1 = pipelines st ∧
      connectionStatus r.1 = connectionStatus st
  end.
Proof.
  intros st r. subst r. unfold sendRequest, sendMessage. cbn [fst snd].
  pose proof (channel_run_handle_ok evs) as Hok. fold st in Hok.
  split; [done|]. split; [apply last_snoc|].
  destruct (socket st) as [i|] eqn:Hs; cbn [fst].
  - split_and!.
    + destruct fails; [|done]. simpl. by rewrite transport_error_sent.
    + by destruct (Hok i Hs) as [Hlen _].
    + by intros ->.
  - simpl. by rewrite <- app_assoc.
Qed.

End RequestProperties.

(** * Runs on the concrete platform *)

Local Open Scope string_scope.

Example parseTimestamp_values :
  parseTimestamp (Some "2025-09-20T12:34:56Z") = Num 1758371696000 ∧
  parseTimestamp at_second_3 = Num 3000 ∧
  parseTimestamp before_epoch = Num (-1000) ∧
  parseTimestamp None = Num 0 ∧
  parseTimestamp (Some "") = Num 0 ∧
  parseTimestamp unparseable = NaN.
Proof. by_evaluation. Qed.

Example hashPoint_value :
  hashPoint (pt 4 (-74) at_second_3) = "4.000000|-74.000000|1970-01-01T00:00:03Z".
Proof. by_evaluation. Qed.

(** the witness of C5: a missing timestamp and an empty one give one key *)
Lemma appendLive_idempotent_witness :
  let p := pt 4 (-74) None in
  let q := pt 4 (-74) (Some "") in
  addToRealtime (addToRealtime TraceService_new p) q = addToRealtime TraceService_new p ∧
  realtimeBuffer (addToRealtime (addToRealtime TraceService_new p) q) =
    realtimeBuffer (addToRealtime TraceService_new p) ∧
  getTrace (addToRealtime (addToRealtime TraceService_new p) q) =
    getTrace (addToRealtime TraceService_new p).
Proof.
  intros p q. apply (appendLive_idempotent TraceService_new p q); reflexivity.
Defined.

(** C4. Four live points, the second with a timestamp the date parser
    rejects: the point of second 5 ends up before the point of second 3, so
    the live buffer is not sorted. *)
Theorem appendLive_unparseable_breaks_order :
  let a := pt 4 (-74) at_second_3 in
  let b := pt 4 (-74) unparseable in
  let c := pt 4 (-74) at_second_1 in
  let d := pt 4 (-74) at_second_5 in
  let st := foldl addToRealtime TraceService_new [a; b; c; d] in
  realtimeBuffer st = [c; d; b; a] ∧
  pts <$> realtimeBuffer st = [Num 1000; Num 5000; NaN; Num 3000] ∧
  ¬ ascending (realtimeBuffer st).
Proof.
  intros a b c d st.
  assert (Hbuf : realtimeBuffer st = [c; d; b; a]) by by_evaluation.
  split_and!.
  - exact Hbuf.
  - by_evaluation.
  - rewrite Hbuf. intros Hs.
    apply StronglySorted_cons in Hs as [_ Hs].
    apply StronglySorted_cons in Hs as [Hd _].
    apply Forall_cons in Hd as [_ Hd]. apply Forall_cons in Hd as [Hda _].
    revert Hda. unfold not_after. by_evaluation.
Qed.

(** The merge example of the specification: H of seconds 10 and 20, L of
    seconds 5, 15 and 25, whatever the order of arrival. *)
Example merge_example :
  let st := trace_run [GpsEmission (raw 4 (-74) at_second_15);
                       history_answer [raw 4 (-74) at_second_20; raw 4 (-74) at_second_10];
                       GpsEmission (raw 4 (-74) at_second_25);
                       GpsEmission (raw 4 (-74) at_second_5)] in
  dummyBuffer st = [pt 4 (-74) at_second_10; pt 4 (-74) at_second_20] ∧
  realtimeBuffer st =
    [pt 4 (-74) at_second_5; pt 4 (-74) at_second_15; pt 4 (-74) at_second_25] ∧
  getTrace st =
    [pt 4 (-74) at_second_10; pt 4 (-74) at_second_20; pt 4 (-74) at_second_25].
Proof. by_evaluation. Qed.

(** C1. A batch answer with one point followed by a batch answer with an
    empty array: both buffers are empty, so the merge is empty, and
    [getTrace] still returns the point of the first batch. *)
Theorem empty_batch_leaves_merged_stale :
  let st := trace_run [history_answer [raw 4 (-74) at_second_3]; history_answer []] in
  dummyBuffer st = [] ∧
  realtimeBuffer st = [] ∧
  merged (dummyBuffer st) (realtimeBuffer st) = [] ∧
  getTrace st = [pt 4 (-74) at_second_3] ∧
  ¬ merged_ok st.
Proof.
  intros st. split_and!; by_evaluation.
Qed.

(** C6. A live point, a batch of two points, then a batch whose array is
    empty: the historical buffer holds the second batch, that is nothing,
    and [getTrace] still returns the two points of the first batch, which
    the live buffer does not hold. *)
Theorem replaced_batch_still_in_trace :
  let st := trace_run [GpsEmission (raw 4 (-74) at_second_25);
                       history_answer [raw 4 (-74) at_second_10; raw 4 (-74) at_second_20];
                       history_answer []] in
  dummyBuffer st = [] ∧
  realtimeBuffer st = [pt 4 (-74) at_second_25] ∧
  getTrace st =
    [pt 4 (-74) at_second_10; pt 4 (-74) at_second_20; pt 4 (-74) at_second_25] ∧
  pt 4 (-74) at_second_10 ∈ getTrace st ∧
  pt 4 (-74) at_second_10 ∉ realtimeBuffer st.
Proof. by_evaluation. Qed.

(** C9, the claim as stated fails.  A live point without timestamp parses
    to 0, which is later than a point dated one second before the epoch: in
    the live buffer it stands behind that point, and behind a historical
    buffer ending with that point it is admitted to the merged buffer. *)
Lemma missing_timestamp_not_minimum :
  let old := pt 4 (-74) before_epoch in
  let p := pt 5 (-74) None in
  let live := foldl addToRealtime TraceService_new [old; p] in
  let both := trace_run [history_answer [raw 4 (-74) before_epoch];
                         GpsEmission (raw 5 (-74) None)] in
  pts p = Num 0 ∧ pts old = Num (-1000) ∧
  realtimeBuffer live = [old; p] ∧
  realtimeBuffer live !! 0%nat ≠ Some p ∧
  dummyBuffer both = [old] ∧
  getTrace both = [old; p] ∧
  p ∈ getTrace both.
Proof. by_evaluation. Qed.

(** the witness of C9: the live buffer holds a point of second 3, the
    historical buffer a point of second 1 *)
Lemma missing_timestamp_sorts_at_epoch_witness :
  let st := foldl addToRealtime TraceService_new [pt 4 (-74) at_second_3] in
  let p := pt 5 (-74) None in
  let st' := trace_run [history_answer [raw 4 (-74) at_second_1];
                        GpsEmission (raw 4 (-74) at_second_3);
                        GpsEmission (raw 5 (-74) None)] in
  pts (normalizePoint p) = Num 0 ∧
  realtimeBuffer (addToRealtime st p) = normalizePoint p :: realtimeBuffer st ∧
  normalizePoint p ∉ cutover (dummyBuffer st') (realtimeBuffer st').
Proof.
  intros st p st'.
  destruct (missing_timestamp_sorts_at_epoch st p (or_introl eq_refl))
    as (Hzero & Hfront & Hcut).
  split_and!.
  - exact Hzero.
  - apply Hfront; by_evaluation.
  - apply (Hcut st' (pt 4 (-74) at_second_1)); by_evaluation.
Defined.

(** ** Runs of the channel *)

Example retry_delay_sequence :
  retry_delay <$> [1; 2; 3; 4; 5; 6; 50]%nat =
    [10000; 20000; 40000; 60000; 60000; 60000; 60000]%Z.
Proof. by_evaluation. Qed.



(** C3.  After fifty failed attempts in a row the status is still
    [connecting] and a timer for the next attempt is pending; when it fires
    a fifty-first attempt is made; when that fails too, [connect(1)] builds a
    new pipeline and the status is [connecting] again. *)
Theorem fifty_failures_do_not_settle :
  let after50 := run fifty_failures in
  let after51 := run (fifty_failures ++ [TimerFires 0; TransportError 0]) in
  connectionStatus after50 = connecting ∧
  (disconnected ∉ statusEmitted after50) ∧
  pipelines after50 = [mkPipeline 0 50 (Waiting 60000)] ∧
  pipelines (channel_step after50 (TimerFires 0)) = [mkPipeline 0 50 Subscribed] ∧
  pipelines after51 = [mkPipeline 0 51 Ended; mkPipeline 1 0 Subscribed] ∧
  connectionStatus after51 = connecting ∧
  socket after51 = Some 1%nat ∧
  Error_max_attempts ∉ console after51.
Proof. by_evaluation. Qed.

(** The channel gives up once the pipeline built by [connect(50)] has let an
    error through: fifty-one pipelines of fifty-one attempts each. *)
Example exhaustion_after_51_pipelines :
  let st := run exhausting_run in
  length (filter (λ ev, is_transport_error ev = true) exhausting_run) = 2601%nat ∧
  connectionStatus st = disconnected ∧
  socket st = None ∧
  length (pipelines st) = 51%nat ∧
  Forall (λ p, phase p = Ended) (pipelines st) ∧
  last (console st) = Some Error_max_attempts.
Proof. by_evaluation. Qed.

(** C7.  [initialize()], [close()], then the connection attempt fails: the
    retry timer is armed; when it fires [retry] resubscribes, and a message
    on the new transport sets the status to [connected] and reaches the
    subscribers, with [isClosed] still set. *)
Theorem closed_channel_reconnects :
  let closed := run [Initialize; Close] in
  let st := run [Initialize; Close; TransportError 0; TimerFires 0;
                 TransportMessage 0 "fix"] in
  connectionStatus closed = disconnected ∧
  pipelines (run [Initialize; Close; TransportError 0]) =
    [mkPipeline 0 1 (Waiting 10000)] ∧
  pipelines (run [Initialize; Close; TransportError 0; TimerFires 0]) =
    [mkPipeline 0 1 Subscribed] ∧
  isClosed st = true ∧
  connectionStatus st = connected ∧
  statusEmitted st = [connecting; disconnected; connected] ∧
  onMessage st = Some "fix".
Proof. by_evaluation. Qed.

(** C8, the claim as stated fails.  Right after [initialize()] the status is
    [connecting] and [sendMessage] returns [true] (app.config.ts sends its
    ping there); after [close()] and a late message the status is
    [connected] and [sendMessage] returns [false]; and on an established
    connection a send that fails returns [true] as well, while the pipeline
    goes into its first retry. *)
Lemma send_accepted_while_connecting :
  connectionStatus (run [Initialize]) = connecting ∧
  (sendMessage "ping" false (run [Initialize])).2 = true ∧
  sent (sendMessage "ping" false (run [Initialize])).1 = [(0%nat, "ping")] ∧
  connectionStatus (run [Initialize; Close; TransportMessage 0 "m"]) = connected ∧
  (sendMessage "ping" false (run [Initialize; Close; TransportMessage 0 "m"])).2 = false ∧
  connectionStatus (run [Initialize; TransportMessage 0 "m"]) = connected ∧
  (sendMessage "ping" true (run [Initialize; TransportMessage 0 "m"])).2 = true ∧
  pipelines (sendMessage "ping" true (run [Initialize; TransportMessage 0 "m"])).1 =
    [mkPipeline 0 1 (Waiting 10000)] ∧
  console (sendMessage "ping" true (run [Initialize; TransportMessage 0 "m"])).1 =
    [Log_initializing; Warn_retry 1 10000].
Proof. by_evaluation. Qed.

(** the witness of C10: connection attempts, no message yet *)
Lemma subscriber_gets_null_before_first_message_witness :
  let evs : list Event := Initialize :: failed_attempt 0 ++ [SendMessage "ping" false] in
  onMessage (channel_run evs) = None ∧
  onGPS (channel_run evs) = None ∧
  onResponse (channel_run evs) = None ∧
  onLog (channel_run evs) = None.
Proof.
  intros evs. apply (subscriber_gets_null_before_first_message evs). reflexivity.
Defined.

(** the consumers of the repository drop the [null] they receive *)
Example null_emission_is_dropped (st : TraceService) :
  trace_step st (GpsEmission None) = st ∧ trace_step st (ResponseEmission None) = st.
Proof. done. Qed.

(** ** Witnesses of the further properties *)

(** the witness of X2: a point of second 3 is inserted between the points
    of seconds 1 and 5 *)
Lemma insertSorted_lower_bound_witness :
  let buffer := [pt 4 (-74) at_second_1; pt 4 (-74) at_second_5] in
  let point := pt 5 (-74) at_second_3 in
  ascending (insertSorted buffer point).1 ∧
  (∀ j q, (j < (insertSorted buffer point).2)%nat → buffer !! j = Some q →
          js_lt (pts q) (pts point) = true) ∧
  (∀ j q, ((insertSorted buffer point).2 ≤ j)%nat → buffer !! j = Some q →
          js_lt (pts q) (pts point) = false).
Proof.
  intros buffer point.
  apply (insertSorted_lower_bound buffer point); dated_by_evaluation.
Defined.

(** the witness of X4: a batch of seconds 1 and 5, then live points of
    seconds 3 and 10 *)
Lemma trace_is_history_then_live_witness :
  let evs := [history_answer [raw 4 (-74) at_second_1; raw 4 (-74) at_second_5];
              GpsEmission (raw 4 (-74) at_second_3);
              GpsEmission (raw 5 (-74) at_second_10)] in
  last (dummyBuffer (trace_run evs)) = Some (pt 4 (-74) at_second_5) ∧
  getTrace (trace_run evs) =
    (dummyBuffer (trace_run evs) ++
     filter (λ p, js_gt (pts p) (pts (pt 4 (-74) at_second_5)) = true ∧
                  hashPoint p ∉ hashPoint <$> dummyBuffer (trace_run evs))
            (realtimeBuffer (trace_run evs)))%list ∧
  getTrace (trace_run evs) =
    [pt 4 (-74) at_second_1; pt 4 (-74) at_second_5; pt 5 (-74) at_second_10].
Proof.
  intros evs.
  assert (Hlast : last (dummyBuffer (trace_run evs)) = Some (pt 4 (-74) at_second_5))
    by by_evaluation.
  pose proof (trace_is_history_then_live evs) as Hshape.
  rewrite Hlast in Hshape.
  split_and!; [exact Hlast|apply Hshape; effective_by_cases|by_evaluation].
Defined.

(** the witness of X6: a batch with a rejected element and a repeated point,
    after an earlier batch *)
Lemma history_answer_replaces_H_witness :
  let st := TraceService_new in
  let st' := trace_run [history_answer [raw 9 9 at_second_20]] in
  let points := [raw 4 (-74) at_second_5; None; raw 4 (-74) at_second_1;
                 raw 4 (-74) at_second_5] in
  let m := mkResponse get_history None success (Some points) in
  dummyBuffer (onHistory st (Some m)) ≡ₚ dedup (normalizePoint <$> omap checked points) ∧
  dummyBuffer (onHistory st' (Some m)) = dummyBuffer (onHistory st (Some m)) ∧
  realtimeBuffer (onHistory st (Some m)) = realtimeBuffer st.
Proof.
  intros st st' points m.
  apply (history_answer_replaces_H st st' m points); reflexivity.
Defined.

(** the witness of X7: a live point, then a batch answer and a second live
    point *)
Lemma live_buffer_only_grows_witness :
  let st := trace_run [GpsEmission (raw 4 (-74) at_second_3)] in
  let evs := [history_answer [raw 4 (-74) at_second_5];
              GpsEmission (raw 4 (-74) at_second_1)] in
  sublist (realtimeBuffer st) (realtimeBuffer (foldl trace_step st evs)).
Proof.
  intros st evs. apply (live_buffer_only_grows st evs).
  unfold evs, history_answer. rewrite !elem_of_cons, elem_of_nil.
  intros [Heq|[Heq|[]]]; discriminate Heq.
Defined.

(** the witness of X8: the historical buffer ends with a point whose
    timestamp is rejected *)
Lemma unparseable_cut_admits_nothing_witness :
  let h := pt 4 (-74) unparseable in
  let A := [pt 4 (-74) at_second_1; h] in
  let B_all := [pt 5 (-74) at_second_25] in
  cutover A B_all = [] ∧ merged A B_all = dedup A.
Proof.
  intros h A B_all. apply (unparseable_cut_admits_nothing A B_all h).
  - reflexivity.
  - by_evaluation.
Defined.

(** the witness of X10: the run of the witness of X4 *)
Lemma trace_run_merged_ascending_witness :
  let evs := [history_answer [raw 4 (-74) at_second_1; raw 4 (-74) at_second_5];
              GpsEmission (raw 4 (-74) at_second_3);
              GpsEmission (raw 5 (-74) at_second_10)] in
  getTrace (trace_run evs) =
    merged (dummyBuffer (trace_run evs)) (realtimeBuffer (trace_run evs)) ∧
  ascending (getTrace (trace_run evs)).
Proof.
  intros evs. apply (trace_run_merged_ascending evs).
  - effective_by_cases.
  - dated_event_by_cases.
Defined.

(** the witness of X11: a live point with a rejected timestamp arrives after
    a point of second 3 *)
Lemma unparseable_timestamp_live_point_witness :
  let st := foldl addToRealtime TraceService_new [pt 4 (-74) at_second_3] in
  let p := pt 5 (-74) unparseable in
  realtimeBuffer (addToRealtime st p) = normalizePoint p :: realtimeBuffer st.
Proof.
  intros st p.
  destruct (unparseable_timestamp_live_point st p) as [Hfront _].
  - by_evaluation.
  - apply Hfront. by_evaluation.
Defined.

(** the witness of X13: a message sent while the first pipeline waits for
    its retry timer *)
Lemma accepted_message_goes_to_live_pipeline_witness :
  let evs : list Event := [Initialize; TransportError 0] in
  ∃ i p, sent (sendMessage "ping" false (channel_run evs)).1 =
           (sent (channel_run evs) ++ [(i, "ping")])%list ∧
         S i = length (pipelines (channel_run evs)) ∧
         pipelines (channel_run evs) !! i = Some p ∧
         phase p ≠ Ended.
Proof.
  intros evs. apply (accepted_message_goes_to_live_pipeline evs "ping" false). reflexivity.
Defined.

(** the witness of X17: after [close()] the attempt fails, the timer fires
    and a message arrives *)
Lemma close_suppresses_connect_witness :
  let st := run [Initialize] in
  let evs : list Event := [TransportError 0; TimerFires 0; TransportMessage 0 "fix"] in
  connectionStatus (close st) = disconnected ∧
  isClosed (foldl channel_step (close st) evs) = true ∧
  socket (foldl channel_step (close st) evs) = None ∧
  length (pipelines (foldl channel_step (close st) evs)) = length (pipelines st) ∧
  connectionStatus (foldl channel_step (close st) evs) ≠ connecting ∧
  ∃ more, statusEmitted (foldl channel_step (close st) evs) =
            (statusEmitted st ++ disconnected :: more)%list ∧
          connecting ∉ more.
Proof.
  intros st evs. apply (close_suppresses_connect st evs). each_element; done.
Defined.

(** before [initialize()] a request is dropped, and reported as sent *)
Example request_before_initialize_is_dropped :
  let r := sendRequest (Incoming := string) (Params := string)
             get_history None None "generated" false (channel_run []) in
  r.2 = "generated" ∧ sent r.1 = [] ∧
  console r.1 = [Warn_send_not_connected; Log_request_sent get_history "generated"].
Proof. done. Qed.

(** ** Runs of the date helpers *)

Example date_helper_values :
  parseIsoToUtc "2025-09-20T12:34:56.789Z" = Num 1758371696000 ∧
  ceilToNextMinute (Num 1758371696000) = Num 1758371700000 ∧
  floorToPrevMinute (Num 1758371696000) = Num 1758371640000 ∧
  ceilToNextMinute (Num 1758371640000) = Num 1758371640000 ∧
  ceilToNextMinute (Num (-1)) = Num 0 ∧
  floorToPrevMinute (Num (-1)) = Num (-60000) ∧
  ceilToNextMinute NaN = NaN ∧
  formatUtcTime (Num 1758371696000) = "12:34" ∧
  formatUtcTime (Num 1758344700000) = "05:05".
Proof. by_evaluation. Qed.

(** a year from 0 to 99 comes back in the twentieth century *)
Example parseIsoToUtc_two_digit_year :
  Date_new "0050-06-15T12:00:00Z" = Num (-60574996800000) ∧
  parseIsoToUtc "0050-06-15T12:00:00Z" = Date_new "1950-06-15T12:00:00Z".
Proof. by_evaluation. Qed.

(** in a browser at UTC-05:00, 2025-09-20T13:15:40Z goes to the picker as
    the local midnight of 20 September, 05:00 UTC *)
Example picker_values :
  toUtcDateOnly (Num 1758374140000) = Num 1758344400000 ∧
  buildUtcDate (Num 1758344400000) (Num 13) (Num 15) = Num 1758374100000 ∧
  buildUtcDate (Num 1758344400000) NaN (Num 15) = NaN.
Proof. by_evaluation. Qed.

(** the witness of X22 *)
Lemma parseIsoToUtc_drops_milliseconds_witness :
  let iso := "2025-09-20T12:34:56.789Z" in
  let t := 1758371696789%Z in
  parseIsoToUtc iso = Num (1000 * (t / 1000)) ∧
  (t mod 1000 = 0 → parseIsoToUtc iso = Date_new iso)%Z.
Proof.
  intros iso t. apply (parseIsoToUtc_drops_milliseconds iso t); by_evaluation.
Defined.

(** the witness of X23: half a second into a minute, the upper bound lies
    before the instant *)
Lemma calendar_bounds_witness :
  let iso := "2025-09-20T12:34:00.500Z" in
  let t := 1758371640500%Z in
  floorToPrevMinute (parseIsoToUtc iso) = Num (60000 * (t / 60000)) ∧
  ∃ r, ceilToNextMinute (parseIsoToUtc iso) = Num r ∧ (r mod 60000 = 0)%Z ∧
       (t - 1000 < r < t + 60000)%Z ∧
       (r < t ↔ 0 < t mod 60000 < 1000)%Z.
Proof.
  intros iso t. apply (calendar_bounds iso t); by_evaluation.
Defined.

(** the witness of X25: the instant of [picker_values], with another hour
    and minute and with its own *)
Lemma picker_day_round_trip_witness :
  let t := 1758374140000%Z in
  buildUtcDate (toUtcDateOnly (Num t)) (Num 8) (Num 30) =
    ES.TimeClip (Num (ES.Day t * ES.msPerDay + 8 * 3600000 + 30 * 60000)) ∧
  buildUtcDate (toUtcDateOnly (Num t)) (ES.getUTCHours (Num t)) (ES.getUTCMinutes (Num t)) =
    floorToPrevMinute (Num t).
Proof.
  intros t. apply (picker_day_round_trip t 8 30); by_evaluation.
Defined.
